(** * TRICOT: trace interception and collection

    A shallow embedding of [src/tricot.py] and of the parts of the Python
    run time it relies on (the object store, [copy.deepcopy], [json.dumps],
    the [logging] package), followed by the properties of the two entry
    points [patch_openai] and [new_log_file] and of the wrapper
    [create_and_log] they install. *)

From Stdlib Require Import ZArith Lia Ascii.
From stdpp Require Import base option list strings gmap.
From Equations Require Import Equations.

Set Warnings "-register-all".

Local Open Scope string_scope.
Local Open Scope Z_scope.
Local Open Scope list_scope.

(** ** Exceptions and results *)

Inductive exn :=
  | TypeError
  | KeyError
  | IndexError
  | ValueError
  | RecursionError
  | OSError
  | SystemError
  | Exception (name : string).

Inductive result (A : Type) :=
  | Ok (a : A)
  | Raise (e : exn).
Arguments Ok {A} a.
Arguments Raise {A} e.

Definition result_bind {A B} (r : result A) (k : A → result B) : result B :=
  match r with
  | Ok a => k a
  | Raise e => Raise e
  end.

(** ** The object store

    Lists and dicts are mutable objects that live in the store and are
    referred to by address; every other value is immutable and is carried
    around as it is.  A float is kept as its IEEE-754 bit pattern: the program
    only stores and prints the one it gets from [time.time].  Dict keys are
    strings, as in every message, response and record handled here, and a
    dict keeps its items in insertion order. *)

Abbreviation addr := nat (only parsing).

Inductive val :=
  | VNone
  | VBool (b : bool)
  | VInt (n : Z)
  | VFloat (bits : Z)
  | VStr (s : string)
  | VBytes (bs : list Z)
  | VRef (a : addr).

Inductive obj :=
  | OList (items : list val)
  | ODict (items : list (string * val)).

Global Instance val_eq_dec : EqDecision val.
Proof. solve_decision. Defined.
Global Instance obj_eq_dec : EqDecision obj.
Proof. solve_decision. Defined.

(** The values an object holds, in order, and the same object around other
    values. *)
Definition obj_vals (o : obj) : list val :=
  match o with
  | OList xs => xs
  | ODict kvs => kvs.*2
  end.

Definition obj_with (o : obj) (ys : list val) : obj :=
  match o with
  | OList _ => OList ys
  | ODict kvs => ODict (zip (kvs.*1) ys)
  end.

Definition alloc (o : obj) (h : list obj) : addr * list obj :=
  (length h, h ++ [o]).

Fixpoint assoc {A} (k : string) (kvs : list (string * A)) : option A :=
  match kvs with
  | [] => None
  | (k', v) :: rest => if decide (k = k') then Some v else assoc k rest
  end.

(** [d[k] = v] on the items of a dict: an existing key keeps its place. *)
Fixpoint dict_set {A} (k : string) (v : A) (kvs : list (string * A))
  : list (string * A) :=
  match kvs with
  | [] => [(k, v)]
  | (k', v') :: rest =>
      if decide (k = k') then (k, v) :: rest else (k', v') :: dict_set k v rest
  end.

Fixpoint chars (s : string) : list val :=
  match s with
  | EmptyString => []
  | String c rest => VStr (String c EmptyString) :: chars rest
  end.

(** Python's index normalisation: [-len <= i < len], negatives count from
    the end. *)
Definition py_index (len : nat) (i : Z) : option nat :=
  if decide (0 ≤ i < Z.of_nat len) then Some (Z.to_nat i)
  else if decide (- Z.of_nat len ≤ i < 0) then Some (Z.to_nat (Z.of_nat len + i))
  else None.

(** [v[k]] for a string [k]. *)
Definition getitem_str (h : list obj) (v : val) (k : string) : result val :=
  match v with
  | VRef a =>
      match h !! a with
      | Some (ODict kvs) =>
          match assoc k kvs with
          | Some x => Ok x
          | None => Raise KeyError
          end
      | Some (OList _) => Raise TypeError
      | None => Raise SystemError
      end
  | _ => Raise TypeError
  end.

(** [v[i]] for an integer [i]. *)
Definition getitem_int (h : list obj) (v : val) (i : Z) : result val :=
  match v with
  | VRef a =>
      match h !! a with
      | Some (OList xs) =>
          match py_index (length xs) i with
          | Some n =>
              match xs !! n with
              | Some x => Ok x
              | None => Raise IndexError
              end
          | None => Raise IndexError
          end
      | Some (ODict _) => Raise KeyError
      | None => Raise SystemError
      end
  | VStr s =>
      match py_index (length (chars s)) i with
      | Some n =>
          match chars s !! n with
          | Some x => Ok x
          | None => Raise IndexError
          end
      | None => Raise IndexError
      end
  | VBytes bs =>
      match py_index (length bs) i with
      | Some n =>
          match bs !! n with
          | Some b => Ok (VInt b)
          | None => Raise IndexError
          end
      | None => Raise IndexError
      end
  | _ => Raise TypeError
  end.

(** Iteration, as [[*v]] does it: the items of a list, the keys of a dict,
    the characters of a string, the bytes of a bytes object. *)
Definition unpack (h : list obj) (v : val) : result (list val) :=
  match v with
  | VRef a =>
      match h !! a with
      | Some (OList xs) => Ok xs
      | Some (ODict kvs) => Ok (VStr <$> kvs.*1)
      | None => Raise SystemError
      end
  | VStr s => Ok (chars s)
  | VBytes bs => Ok (VInt <$> bs)
  | _ => Raise TypeError
  end.

(** One element of the sequence given to [dict(...)]: a sequence of two
    items, the key and the value.  A key that is not a string is outside the
    object model and is reported as a [TypeError]. *)
Definition pair_of (h : list obj) (v : val) : result (string * val) :=
  match unpack h v with
  | Ok [VStr k; x] => Ok (k, x)
  | Ok [_; _] => Raise TypeError
  | Ok _ => Raise ValueError
  | Raise e => Raise e
  end.

Fixpoint pairs_of (h : list obj) (vs : list val) (acc : list (string * val))
  : result (list (string * val)) :=
  match vs with
  | [] => Ok acc
  | v :: rest =>
      match pair_of h v with
      | Ok (k, x) => pairs_of h rest (dict_set k x acc)
      | Raise e => Raise e
      end
  end.

(** [dict(v)]: a new dict object.  Given a dict it is a shallow copy: the
    same items, a new object. *)
Definition dict_ (v : val) (h : list obj) : result (val * list obj) :=
  match v with
  | VRef a =>
      match h !! a with
      | Some (ODict kvs) =>
          let '(b, h') := alloc (ODict kvs) h in Ok (VRef b, h')
      | Some (OList xs) =>
          match pairs_of h xs [] with
          | Ok kvs => let '(b, h') := alloc (ODict kvs) h in Ok (VRef b, h')
          | Raise e => Raise e
          end
      | None => Raise SystemError
      end
  | VStr s =>
      match pairs_of h (chars s) [] with
      | Ok kvs => let '(b, h') := alloc (ODict kvs) h in Ok (VRef b, h')
      | Raise e => Raise e
      end
  | VBytes [] => let '(b, h') := alloc (ODict []) h in Ok (VRef b, h')
  | _ => Raise TypeError
  end.

(** ** copy.deepcopy

    [deepcopy] walks the object graph with a memo from the address of an
    object to the address of its copy, so that sharing and cycles are kept.
    The walk is recursive, and the interpreter bounds the depth of the call
    stack. A call of [deepcopy] takes a frame and calls out of it ([id],
    [memo.get], the copier of the value's type), which takes one more level;
    the copier of a list or of a dict, [_deepcopy_list] or [_deepcopy_dict],
    runs at that level, calls [id] one level further down and [deepcopy] on
    every item. So a value is copied with [frames] levels left below the
    caller: two are needed for any value, three for a list or a dict, whose
    items are copied with two levels fewer. (The keys of a dict are strings
    and are copied as any string is.) *)

Fixpoint copy_items
    (cp : val → gmap addr addr → list obj →
          result (val * gmap addr addr * list obj))
    (xs : list val) (memo : gmap addr addr) (h : list obj)
  : result (list val * gmap addr addr * list obj) :=
  match xs with
  | [] => Ok ([], memo, h)
  | x :: rest =>
      match cp x memo h with
      | Raise e => Raise e
      | Ok (y, memo1, h1) =>
          match copy_items cp rest memo1 h1 with
          | Raise e => Raise e
          | Ok (ys, memo2, h2) => Ok (y :: ys, memo2, h2)
          end
      end
  end.

Fixpoint deepcopy_rec (frames : nat) (x : val) (memo : gmap addr addr)
    (h : list obj) : result (val * gmap addr addr * list obj) :=
  match frames with
  | S (S d) =>
      match x with
      | VRef a =>
          match memo !! a with
          | Some b => Ok (VRef b, memo, h)
          | None =>
              match h !! a with
              | None => Raise SystemError
              | Some o =>
                  match d with
                  | O => Raise RecursionError
                  | S _ =>
                      let '(b, h0) := alloc (obj_with o []) h in
                      match copy_items (deepcopy_rec d) (obj_vals o)
                                       (<[a:=b]> memo) h0 with
                      | Raise e => Raise e
                      | Ok (ys, memo', h') =>
                          Ok (VRef b, memo', <[b:=obj_with o ys]> h')
                      end
                  end
              end
          end
      | _ => Ok (x, memo, h)
      end
  | _ => Raise RecursionError
  end.

(** [deepcopy(x)], called with [limit] levels of the call stack left. *)
Definition deepcopy (limit : nat) (x : val) (h : list obj)
  : result (val * list obj) :=
  match deepcopy_rec limit x ∅ h with
  | Ok (y, _, h') => Ok (y, h')
  | Raise e => Raise e
  end.

(** ** json.dumps

    The text [json.dumps] returns is kept as the JSON document it spells.
    Bytes are not serializable, a container met again below itself is a
    circular reference, and the nesting depth is bounded by the recursion
    limit. *)

Inductive json :=
  | JNull
  | JBool (b : bool)
  | JInt (n : Z)
  | JFloat (bits : Z)
  | JStr (s : string)
  | JArr (items : list json)
  | JObj (items : list (string * json)).

Fixpoint encode_items (enc : val → result json) (xs : list val)
  : result (list json) :=
  match xs with
  | [] => Ok []
  | x :: rest =>
      match enc x with
      | Raise e => Raise e
      | Ok j =>
          match encode_items enc rest with
          | Raise e => Raise e
          | Ok js => Ok (j :: js)
          end
      end
  end.

Definition json_with (o : obj) (js : list json) : json :=
  match o with
  | OList _ => JArr js
  | ODict kvs => JObj (zip (kvs.*1) js)
  end.

Fixpoint encode (depth : nat) (h : list obj) (markers : list addr) (v : val)
  : result json :=
  match depth with
  | O => Raise RecursionError
  | S d =>
      match v with
      | VNone => Ok JNull
      | VBool b => Ok (JBool b)
      | VInt n => Ok (JInt n)
      | VFloat f => Ok (JFloat f)
      | VStr s => Ok (JStr s)
      | VBytes _ => Raise TypeError
      | VRef a =>
          if decide (a ∈ markers) then Raise ValueError
          else
            match h !! a with
            | None => Raise SystemError
            | Some o =>
                match encode_items (encode d h (a :: markers)) (obj_vals o) with
                | Raise e => Raise e
                | Ok js => Ok (json_with o js)
                end
            end
      end
  end.

Definition json_dumps (limit : nat) (h : list obj) (v : val) : result json :=
  encode limit h [] v.

(** ** The interpreter state seen by foreign code

    The editing hook and the client library's completion call are foreign
    code.  They run on the object store, which they may extend and mutate,
    and they take time; they may raise.  They do not touch the logging
    configuration or the file system. *)

Record interp := Interp {
  heap : list obj;
  clock : Z
}.

Definition hook := val → interp → result val * interp.

(** A keyword argument of a call: a value of the store, or a function. *)
Inductive arg :=
  | AVal (v : val)
  | AHook (f : hook).

Definition keywords := list (string * arg).
Definition completion := val → keywords → interp → result val * interp.

(** ** The logging package

    Two loggers matter: the channel ["TRICOT"] and its parent, the root
    logger.  A logger has a level, its handlers, and the [propagate] and
    [disabled] flags; a handler has an identity, a level and, for a
    [FileHandler], the file it appends to (any other handler writes to the
    console).  Handlers format a record as its message alone, which is what
    a handler without a formatter does; filters are not modelled. *)

Definition NOTSET : Z := 0.
Definition INFO : Z := 20.
Definition WARNING : Z := 30.

Record handler := Handler {
  hid : nat;
  hlevel : Z;
  baseFilename : option string
}.

Record logger := Logger {
  level : Z;
  handlers : list handler;
  propagate : bool;
  disabled : bool
}.

Inductive logger_name := root | TRICOT.

Record logging_module := Logging {
  root_logger : logger;
  tricot_logger : logger;
  manager_disable : Z
}.

Global Instance handler_eq_dec : EqDecision handler.
Proof. solve_decision. Defined.

Definition getLogger (name : logger_name) (L : logging_module) : logger :=
  match name with
  | root => root_logger L
  | TRICOT => tricot_logger L
  end.

Definition set_logger (name : logger_name) (l : logger) (L : logging_module)
  : logging_module :=
  match name with
  | root => Logging l (tricot_logger L) (manager_disable L)
  | TRICOT => Logging (root_logger L) l (manager_disable L)
  end.

(** A logger followed by its ancestors, nearest first. *)
Definition lineage (name : logger_name) : list logger_name :=
  match name with
  | root => [root]
  | TRICOT => [TRICOT; root]
  end.

Definition setLevel (name : logger_name) (lvl : Z) (L : logging_module)
  : logging_module :=
  let l := getLogger name L in
  set_logger name (Logger lvl (handlers l) (propagate l) (disabled l)) L.

(** [Logger.hasHandlers]: look for a handler on this logger and then on its
    ancestors, stopping below a logger that does not propagate. *)
Fixpoint hasHandlers_from (chain : list logger_name) (L : logging_module)
  : bool :=
  match chain with
  | [] => false
  | c :: up =>
      match handlers (getLogger c L) with
      | _ :: _ => true
      | [] => if propagate (getLogger c L) then hasHandlers_from up L else false
      end
  end.

Definition hasHandlers (name : logger_name) (L : logging_module) : bool :=
  hasHandlers_from (lineage name) L.

(** [list.remove]: drop the first occurrence, where handlers are compared by
    identity. *)
Fixpoint remove_first (h : handler) (hs : list handler) : list handler :=
  match hs with
  | [] => []
  | h' :: rest =>
      if decide (hid h' = hid h) then rest else h' :: remove_first h rest
  end.

Definition is_attached (h : handler) (hs : list handler) : bool :=
  bool_decide (hid h ∈ hid <$> hs).

Definition removeHandler (name : logger_name) (h : handler)
    (L : logging_module) : logging_module :=
  let l := getLogger name L in
  if is_attached h (handlers l)
  then set_logger name
         (Logger (level l) (remove_first h (handlers l)) (propagate l)
                 (disabled l)) L
  else L.

Definition addHandler (name : logger_name) (h : handler)
    (L : logging_module) : logging_module :=
  let l := getLogger name L in
  if is_attached h (handlers l) then L
  else set_logger name
         (Logger (level l) (handlers l ++ [h]) (propagate l) (disabled l)) L.

Fixpoint getEffectiveLevel_from (chain : list logger_name)
    (L : logging_module) : Z :=
  match chain with
  | [] => NOTSET
  | c :: up =>
      if decide (level (getLogger c L) = 0) then getEffectiveLevel_from up L
      else level (getLogger c L)
  end.

Definition isEnabledFor (name : logger_name) (lvl : Z) (L : logging_module)
  : bool :=
  if disabled (getLogger name L) then false
  else if decide (lvl ≤ manager_disable L) then false
  else bool_decide (getEffectiveLevel_from (lineage name) L ≤ lvl).

(** The handlers [Logger.callHandlers] finds for a record, in the order it
    visits them. *)
Fixpoint found_handlers (chain : list logger_name) (L : logging_module)
  : list handler :=
  match chain with
  | [] => []
  | c :: up =>
      handlers (getLogger c L) ++
      (if propagate (getLogger c L) then found_handlers up L else [])
  end.

(** ** Paths

    [os.path.abspath] on a POSIX system: a path that does not start with a
    slash is joined to the working directory, and the result is normalized
    by [normpath], which drops empty and ["."] components and resolves
    [".."] against the component before it. *)

(** [s.split("/")]. *)
Fixpoint split_slash (s : string) : list string :=
  match s with
  | EmptyString => [EmptyString]
  | String c rest =>
      if decide (c = "/"%char) then EmptyString :: split_slash rest
      else
        match split_slash rest with
        | piece :: pieces => String c piece :: pieces
        | [] => [String c EmptyString]
        end
  end.

(** ["/".join(comps)]. *)
Fixpoint join_slash (comps : list string) : string :=
  match comps with
  | [] => ""
  | [c] => c
  | c :: rest => c +:+ "/" +:+ join_slash rest
  end.

Definition isabs (path : string) : bool :=
  match path with
  | String c _ => bool_decide (c = "/"%char)
  | EmptyString => false
  end.

Fixpoint ends_with_slash (path : string) : bool :=
  match path with
  | EmptyString => false
  | String c EmptyString => bool_decide (c = "/"%char)
  | String _ rest => ends_with_slash rest
  end.

(** [os.path.join(a, b)]. *)
Definition path_join (a b : string) : string :=
  if isabs b then b
  else if bool_decide (a = "") || ends_with_slash a then a +:+ b
  else a +:+ "/" +:+ b.

(** The loop of [normpath] over the components; [new_comps] is kept with
    its last component first. *)
Fixpoint norm_comps (initial_slashes : nat) (comps new_comps : list string)
  : list string :=
  match comps with
  | [] => reverse new_comps
  | comp :: rest =>
      if bool_decide (comp = "") || bool_decide (comp = ".")
      then norm_comps initial_slashes rest new_comps
      else if negb (bool_decide (comp = ".."))
              || (bool_decide (initial_slashes = 0%nat)
                  && bool_decide (new_comps = []))
              || bool_decide (head new_comps = Some "..")
      then norm_comps initial_slashes rest (comp :: new_comps)
      else norm_comps initial_slashes rest (tail new_comps)
  end.

(** One or two slashes at the start are kept, three or more are one. *)
Definition initial_slashes (path : string) : nat :=
  match path with
  | String c1 (String c2 (String c3 _)) =>
      if bool_decide (c1 = "/"%char) then
        if bool_decide (c2 = "/"%char) then
          if bool_decide (c3 = "/"%char) then 1 else 2
        else 1
      else 0
  | String c1 (String c2 EmptyString) =>
      if bool_decide (c1 = "/"%char) then
        if bool_decide (c2 = "/"%char) then 2 else 1
      else 0
  | String c1 EmptyString => if bool_decide (c1 = "/"%char) then 1 else 0
  | EmptyString => 0
  end%nat.

Fixpoint slashes (n : nat) : string :=
  match n with
  | O => ""
  | S k => String "/"%char (slashes k)
  end.

Definition normpath (path : string) : string :=
  if bool_decide (path = "") then "."
  else
    let n := initial_slashes path in
    let normal := slashes n +:+ join_slash (norm_comps n (split_slash path) []) in
    if bool_decide (normal = "") then "." else normal.

Definition abspath (cwd path : string) : string :=
  normpath (if isabs path then path else path_join cwd path).

(** A path with a NUL character cannot be given to the operating system. *)
Fixpoint has_nul (path : string) : bool :=
  match path with
  | EmptyString => false
  | String c rest => bool_decide (c = "000"%char) || has_nul rest
  end.

(** ** The world

    Besides the interpreter state and the logging configuration: the
    working directory; the log files, by absolute path (a file is the list
    of the lines written to it; two absolute paths are taken to be two
    files); the absolute paths the operating system refuses to open for
    appending; the console; the handlers a [FileHandler] call has created,
    each with a stream it opened; those among all handlers that have been
    dropped since; the handlers the application holds a reference to; the
    number of handlers created so far; and, as a history of the run, the
    messages that were handed to [Logger.info] on the channel.

    CPython frees an object when the last reference to it goes. A handler
    that is off every logger and that the application does not hold is
    dropped at that point, and the stream of a dropped [FileHandler] is
    closed by the finalizer of its file object. *)

Record world := World {
  py : interp;
  logging : logging_module;
  cwd : string;
  files : gmap string (list json);
  refused : gset string;
  console : list json;
  streams : gset nat;
  dropped : gset nat;
  held : gset nat;
  handler_count : nat;
  emitted : list json
}.

Definition set_py (i : interp) (w : world) : world :=
  World i (logging w) (cwd w) (files w) (refused w) (console w) (streams w)
        (dropped w) (held w) (handler_count w) (emitted w).

Definition set_heap (h : list obj) (w : world) : world :=
  set_py (Interp h (clock (py w))) w.

Definition set_logging (L : logging_module) (w : world) : world :=
  World (py w) L (cwd w) (files w) (refused w) (console w) (streams w)
        (dropped w) (held w) (handler_count w) (emitted w).

(** The paths that cannot be opened for appending: the ones that can be
    given to the operating system and that it refuses. *)
Definition unwritable (w : world) : gset string :=
  filter (λ path, has_nul path = false) (refused w).

(** A small state-and-exception monad over the world.  An exception leaves
    the world as it was when it was raised. *)
Definition W (A : Type) : Type := world → result A * world.

Definition ret {A} (a : A) : W A := λ w, (Ok a, w).
Definition raise {A} (e : exn) : W A := λ w, (Raise e, w).
Definition bind {A B} (c : W A) (k : A → W B) : W B :=
  λ w, match c w with
       | (Ok a, w') => k a w'
       | (Raise e, w') => (Raise e, w')
       end.

Notation "x <- c ;; k" := (bind c (λ x, k))
  (at level 100, c at next level, right associativity).
Notation "c ;;; k" := (bind c (λ _, k))
  (at level 100, right associativity).

(** A computation that only reads the store. *)
Definition read_heap {A} (f : list obj → result A) : W A :=
  λ w, (f (heap (py w)), w).

(** A computation that allocates in the store.  When it raises, the objects
    it had made are out of reach, and the store is left as it was. *)
Definition on_heap {A} (f : list obj → result (A * list obj)) : W A :=
  λ w, match f (heap (py w)) with
       | Ok (a, h') => (Ok a, set_heap h' w)
       | Raise e => (Raise e, w)
       end.

(** A call into foreign code. *)
Definition foreign {A} (f : interp → result A * interp) : W A :=
  λ w, let '(r, i) := f (py w) in (r, set_py i w).

Definition new_object (o : obj) : W val :=
  on_heap (λ h, let '(b, h') := alloc o h in Ok (VRef b, h')).

Definition time_time : W val := λ w, (Ok (VFloat (clock (py w))), w).

(** [Handler.emit]: a file handler appends the line to its file, any other
    handler writes it to the console. *)
Definition emit (line : json) (h : handler) (w : world) : world :=
  match baseFilename h with
  | Some p =>
      World (py w) (logging w) (cwd w)
            (<[p := default [] (files w !! p) ++ [line]]> (files w))
            (refused w) (console w) (streams w) (dropped w) (held w)
            (handler_count w) (emitted w)
  | None =>
      World (py w) (logging w) (cwd w) (files w) (refused w)
            (console w ++ [line]) (streams w) (dropped w) (held w)
            (handler_count w) (emitted w)
  end.

(** [Logger.callHandlers]: every handler found whose level admits the record
    emits it; if none was found the handler of last resort, whose level is
    [WARNING], writes to the console. *)
Definition callHandlers (name : logger_name) (lvl : Z) (line : json)
    (w : world) : world :=
  match found_handlers (lineage name) (logging w) with
  | [] =>
      if decide (WARNING ≤ lvl) then emit line (Handler 0 WARNING None) w
      else w
  | hs =>
      foldl (λ w' h, if decide (hlevel h ≤ lvl) then emit line h w' else w')
            w hs
  end.

Definition record_emitted (line : json) (w : world) : world :=
  World (py w) (logging w) (cwd w) (files w) (refused w) (console w)
        (streams w) (dropped w) (held w) (handler_count w)
        (emitted w ++ [line]).

(** [logger.info(msg)] on the channel. *)
Definition logger_info (name : logger_name) (line : json) : W unit :=
  λ w,
    let w1 := record_emitted line w in
    if isEnabledFor name INFO (logging w1)
    then (Ok tt, callHandlers name INFO line w1)
    else (Ok tt, w1).

(** [logging.FileHandler(filename)]: the handler's [baseFilename] is the
    absolute path of [filename]; that file is opened for appending, which
    creates it when it does not exist, and the new handler is around the
    open stream. [open] raises [ValueError] for a path with a NUL character
    and [OSError] when the operating system refuses the path. *)
Definition FileHandler (filename : string) : W handler :=
  λ w,
    let file := abspath (cwd w) filename in
    if has_nul file then (Raise ValueError, w)
    else if decide (file ∈ refused w) then (Raise OSError, w)
    else
      let h := Handler (handler_count w) NOTSET (Some file) in
      (Ok h,
       World (py w) (logging w) (cwd w)
             (<[file := default [] (files w !! file)]> (files w))
             (refused w) (console w) ({[handler_count w]} ∪ streams w)
             (dropped w) (held w) (S (handler_count w)) (emitted w)).

(** What still refers to a handler: the application, or a logger it is
    attached to. *)
Definition referenced (i : nat) (w : world) : Prop :=
  i ∈ held w ∨
  i ∈ hid <$> (handlers (tricot_logger (logging w)) ++
               handlers (root_logger (logging w))).

Global Instance referenced_dec (i : nat) (w : world) :
  Decision (referenced i w).
Proof. unfold referenced. apply _. Defined.

(** The reference that a statement held to a handler goes: the handler is
    dropped if nothing else refers to it. *)
Definition release (h : handler) (w : world) : world :=
  if decide (referenced (hid h) w) then w
  else World (py w) (logging w) (cwd w) (files w) (refused w) (console w)
             (streams w) ({[hid h]} ∪ dropped w) (held w) (handler_count w)
             (emitted w).

(** ** tricot.py *)

(** [s.split(".")]: the pieces of [s] between its dots; there is always at
    least one. *)
Fixpoint split_dot (s : string) : list string :=
  match s with
  | EmptyString => [EmptyString]
  | String c rest =>
      if decide (c = "."%char) then EmptyString :: split_dot rest
      else
        match split_dot rest with
        | piece :: pieces => String c piece :: pieces
        | [] => [String c EmptyString]
        end
  end.

(** Line 47: [openai.__version__.split(".")[0] == "0"]. *)
Definition openai_is_pre_1_0_0 (version : string) : result bool :=
  match split_dot version with
  | major :: _ => Ok (bool_decide (major = "0"))
  | [] => Raise IndexError
  end.

Definition inspect {A : Type} (x : A) : {y : A | x = y} := exist _ x eq_refl.

(** The loop of [new_log_file]:
    [while logger.hasHandlers(): logger.removeHandler(logger.handlers[0])].
    [logger.handlers[0]] raises [IndexError] on a channel without handlers;
    every other round takes one handler off the channel, and the statement
    holds no reference to it afterwards. *)
Equations? remove_handlers (w : world) : result unit * world
  by wf (length (handlers (tricot_logger (logging w)))) lt :=
remove_handlers w with inspect (hasHandlers TRICOT (logging w)) := {
  | exist _ false _ => (Ok tt, w)
  | exist _ true _ with inspect (handlers (tricot_logger (logging w))) := {
      | exist _ nil _ => (Raise IndexError, w)
      | exist _ (cons h t) E =>
          remove_handlers
            (release h (set_logging (removeHandler TRICOT h (logging w)) w))
    } }.
Proof.
  assert (logging (release h (set_logging (removeHandler TRICOT h (logging w))
                                w))
          = removeHandler TRICOT h (logging w)) as ->
    by (unfold release; by destruct (decide _)).
  unfold removeHandler, is_attached. simpl. rewrite E.
  rewrite bool_decide_eq_true_2 by (rewrite fmap_cons; apply list_elem_of_here).
  simpl. destruct (decide (hid h = hid h)); [lia | congruence].
Defined.

(** What [create_and_log] does with the value it is given as [edit_call]:
    [None] is no hook, a function is the hook, and any other value is a
    hook that cannot be called. *)
Definition as_hook (given : arg) : option hook :=
  match given with
  | AHook f => Some f
  | AVal VNone => None
  | AVal _ => Some (λ _ i, (Raise TypeError, i))
  end.

(** The keywords other than [k]. *)
Definition without_key (k : string) (kwargs : list (string * arg))
  : keywords :=
  filter (λ kv, kv.1 ≠ k) kwargs.

(** What the patched attribute of the [openai] module holds: the client
    library's own function, or [partial(create_and_log, edit_call=...)]. *)
Inductive callable :=
  | library_create
  | partial_create_and_log (edit_call : option hook).

(** The two attributes the module is patched at, one per library version. *)
Record openai_module := Openai {
  ChatCompletion_create : callable;
  chat_completions_create : callable
}.

Section Tricot.

(** The levels of the call stack that are left below the frame of
    [create_and_log]: [sys.getrecursionlimit()] less the depth of that
    frame. *)
Variable recursion_limit : nat.
(** [openai.__version__.split(".")[0] == "0"]. *)
Variable OPENAI_IS_PRE_1_0_0 : bool.
(** The function the client library exposed when the module was loaded. *)
Variable original_chat_completion_create : completion.
(** [time.strftime('%Y-%m-%d_%H-%M-%S')] at a reading of the clock. *)
Variable strftime : Z → string.

Definition create_and_log (messages : val) (edit_call : option hook)
    (kwargs : keywords) : W val :=
  messages <- match edit_call with
              | Some f =>
                  messages <- on_heap (deepcopy recursion_limit messages) ;;
                  foreign (f messages)
              | None => ret messages
              end ;;
  let logger := TRICOT in
  now <- time_time ;;
  response <- foreign (original_chat_completion_create messages kwargs) ;;
  items <- read_heap (λ h, unpack h messages) ;;
  choices <- read_heap (λ h, getitem_str h response "choices") ;;
  choice <- read_heap (λ h, getitem_int h choices 0) ;;
  message <- read_heap (λ h, getitem_str h choice "message") ;;
  reply <- on_heap (dict_ message) ;;
  messages <- new_object (OList (items ++ [reply])) ;;
  record <- new_object (ODict [("timestamp", now); ("messages", messages)]) ;;
  line <- read_heap (λ h, json_dumps recursion_limit h record) ;;
  logger_info logger line ;;;
  ret response.

Definition patch_openai (edit_call : option hook) (openai : openai_module)
  : openai_module :=
  let new := partial_create_and_log edit_call in
  if OPENAI_IS_PRE_1_0_0
  then Openai new (chat_completions_create openai)
  else Openai (ChatCompletion_create openai) new.

Definition new_log_file (path : option string) : W unit :=
  path <- match path with
          | None =>
              λ w, (Ok ("logs/" +:+ strftime (clock (py w)) +:+ ".log"), w)
          | Some p => ret p
          end ;;
  let logger := TRICOT in
  (λ w, (Ok tt, set_logging (setLevel logger INFO (logging w)) w)) ;;;
  remove_handlers ;;;
  h <- FileHandler path ;;
  λ w, (Ok tt, set_logging (addHandler logger h (logging w)) w).

(** Calling what an attribute of the module holds, as the application does:
    [create(messages=messages, **kwargs)]. A keyword cannot be given twice.
    [partial(create_and_log, edit_call=...)] calls [create_and_log] with the
    keywords of the call on top of the one it has bound: an [edit_call]
    given at the call replaces the bound one, and like the bound one it is
    taken by the parameter of that name and is not among the [**kwargs] that
    are sent on. *)
Definition call (c : callable) (messages : val) (kwargs : keywords)
  : W val :=
  match assoc "messages" kwargs with
  | Some _ => raise TypeError
  | None =>
      match c with
      | library_create =>
          foreign (original_chat_completion_create messages kwargs)
      | partial_create_and_log edit_call =>
          match assoc "edit_call" kwargs with
          | Some given =>
              create_and_log messages (as_hook given)
                (without_key "edit_call" kwargs)
          | None => create_and_log messages edit_call kwargs
          end
      end
  end.

(** The application's call site: the attribute of its library version. *)
Definition chat_completion (openai : openai_module) (messages : val)
    (kwargs : keywords) : W val :=
  call (if OPENAI_IS_PRE_1_0_0 then ChatCompletion_create openai
        else chat_completions_create openai) messages kwargs.

(** *** The steps of [create_and_log], named

    [create_and_log_steps] below shows that the wrapper is these steps in
    a row. *)

(** Lines 64 to 66: the messages that are sent on. *)
Definition edited (edit_call : option hook) (messages : val) : W val :=
  match edit_call with
  | Some f =>
      messages <- on_heap (deepcopy recursion_limit messages) ;;
      foreign (f messages)
  | None => ret messages
  end.

(** [response["choices"][0]["message"]]. *)
Definition top_message (response : val) : W val :=
  choices <- read_heap (λ h, getitem_str h response "choices") ;;
  choice <- read_heap (λ h, getitem_int h choices 0) ;;
  read_heap (λ h, getitem_str h choice "message").

(** Line 73: the conversation trace. *)
Definition trace (messages response : val) : W val :=
  items <- read_heap (λ h, unpack h messages) ;;
  message <- top_message response ;;
  reply <- on_heap (dict_ message) ;;
  new_object (OList (items ++ [reply])).

(** Lines 75 to 80: the record and its serialization. *)
Definition serialized (now messages : val) : W json :=
  record <- new_object (ODict [("timestamp", now); ("messages", messages)]) ;;
  read_heap (λ h, json_dumps recursion_limit h record).

(** Lines 73 to 80: the line that is logged for a response. *)
Definition log_line (now messages response : val) : W json :=
  messages <- trace messages response ;;
  serialized now messages.

(** The ways a call of the wrapper can go. *)
Inductive outcome (messages : val) (edit_call : option hook)
    (kwargs : keywords) (w : world) : result val → world → Prop :=
  | hook_failed e w1 :
      edited edit_call messages w = (Raise e, w1) →
      outcome messages edit_call kwargs w (Raise e) w1
  | completion_failed forwarded w1 e i2 :
      edited edit_call messages w = (Ok forwarded, w1) →
      original_chat_completion_create forwarded kwargs (py w1)
        = (Raise e, i2) →
      outcome messages edit_call kwargs w (Raise e) (set_py i2 w1)
  | record_failed forwarded w1 response i2 e w3 :
      edited edit_call messages w = (Ok forwarded, w1) →
      original_chat_completion_create forwarded kwargs (py w1)
        = (Ok response, i2) →
      log_line (VFloat (clock (py w1))) forwarded response (set_py i2 w1)
        = (Raise e, w3) →
      outcome messages edit_call kwargs w (Raise e) w3
  | logged forwarded w1 response i2 line w3 :
      edited edit_call messages w = (Ok forwarded, w1) →
      original_chat_completion_create forwarded kwargs (py w1)
        = (Ok response, i2) →
      log_line (VFloat (clock (py w1))) forwarded response (set_py i2 w1)
        = (Ok line, w3) →
      outcome messages edit_call kwargs w (Ok response)
              (snd (logger_info TRICOT line w3)).

End Tricot.

(** ** Vocabulary of the properties *)

(** The channel with its own handlers taken off. *)
Definition without_handlers (L : logging_module) : logging_module :=
  let l := tricot_logger L in
  set_logger TRICOT (Logger (level l) [] (propagate l) (disabled l)) L.

(** The name [new_log_file] gives to [FileHandler]: its argument, or the
    default of line 105. *)
Definition log_name (strftime : Z → string) (path : option string) (w : world)
  : string :=
  match path with
  | Some p => p
  | None => "logs/" +:+ strftime (clock (py w)) +:+ ".log"
  end.

(** The file [new_log_file] opens: the absolute path of that name. *)
Definition log_path (strftime : Z → string) (path : option string) (w : world)
  : string :=
  abspath (cwd w) (log_name strftime path w).

(** The channel after the level is set and the loop of [new_log_file] has
    run. *)
Definition drained (L : logging_module) : logging_module :=
  without_handlers (setLevel TRICOT INFO L).

(** The stream of a handler is closed: the handler has been dropped. *)
Definition is_closed (h : handler) (w : world) : Prop := hid h ∈ dropped w.

(** Something other than the channel refers to a handler: the application
    holds it, or it is attached to the root logger. *)
Definition kept_elsewhere (h : handler) (w : world) : Prop :=
  hid h ∈ held w ∨ hid h ∈ hid <$> handlers (root_logger (logging w)).

(** The state the loop of [new_log_file] leaves: the channel has no handler
    of its own, and the handlers it had are dropped unless the application
    holds them or the root logger has them too. *)
Definition stripped (w : world) : world :=
  World (py w) (without_handlers (logging w)) (cwd w) (files w) (refused w)
        (console w) (streams w)
        (dropped w ∪
         list_to_set
           (filter (λ i, (i ∉ held w) ∧
                         (i ∉ hid <$> handlers (root_logger (logging w))))
                   (hid <$> handlers (tricot_logger (logging w)))))
        (held w) (handler_count w) (emitted w).

(** The same, after the level was set. *)
Definition drained_world (w : world) : world :=
  stripped (set_logging (setLevel TRICOT INFO (logging w)) w).

(** Every object of [h] is still there, as it was, in [h']. *)
Definition preserved (h h' : list obj) : Prop :=
  ∀ a o, h !! a = Some o → h' !! a = Some o.

(** A field of a JSON object. *)
Definition json_field (k : string) (j : json) : option json :=
  match j with
  | JObj kvs => assoc k kvs
  | _ => None
  end.

(** A computation that changes nothing but the interpreter state. *)
Definition py_only {A} (c : W A) : Prop :=
  ∀ w r w', c w = (r, w') → w' = set_py (py w') w.

(** A computation that only adds objects to the store. *)
Definition grows {A} (c : W A) : Prop :=
  ∀ w r w', c w = (r, w') → preserved (heap (py w)) (heap (py w')).

(** [b] is the address of an object that can be reached from [v]. *)
Inductive reach (h : list obj) : val → addr → Prop :=
  | reach_here a : reach h (VRef a) a
  | reach_step a o x b :
      h !! a = Some o → x ∈ obj_vals o → reach h x b → reach h (VRef a) b.

(** A value or an object whose references point into [h]. *)
Definition val_in (h : list obj) (v : val) : Prop :=
  match v with
  | VRef a => (a < length h)%nat
  | _ => True
  end.

Definition heap_closed (h : list obj) : Prop :=
  ∀ a o, h !! a = Some o → Forall (val_in h) (obj_vals o).

(** A hook works on what it is given: an object that exists when the hook is
    called and cannot be reached from its argument is left as it is. *)
Definition hook_frame (f : hook) : Prop :=
  ∀ x i r i', f x i = (r, i') →
    ∀ a o, heap i !! a = Some o → ¬ reach (heap i) x a → heap i' !! a = Some o.

(** The completion call builds a response; it does not change the objects
    that exist when it is called. *)
Definition completion_frame (g : completion) : Prop :=
  ∀ m kw i r i', g m kw i = (r, i') → preserved (heap i) (heap i').

(** [y] is [x] with every address replaced along [memo]. *)
Definition renamed (memo : gmap addr addr) (x y : val) : Prop :=
  match x with
  | VRef a => ∃ b, memo !! a = Some b ∧ y = VRef b
  | _ => y = x
  end.

Definition obj_renamed (memo : gmap addr addr) (o o' : obj) : Prop :=
  o' = obj_with o (obj_vals o') ∧ Forall2 (renamed memo) (obj_vals o) (obj_vals o').

(** The state of a copy in progress, started on the store [h0]: the store
    still begins with [h0], and the memo sends objects of [h0] to distinct
    objects made since. *)
Definition copying (h0 : list obj) (m : gmap addr addr) (h : list obj) : Prop :=
  h0 `prefix_of` h ∧
  (∀ a b, m !! a = Some b →
     (a < length h0)%nat ∧ (length h0 ≤ b < length h)%nat) ∧
  (∀ a a' b, m !! a = Some b → m !! a' = Some b → a = a').

(** What a step of the copy does: the store and the memo grow, the objects
    that were there are kept, and every address the step adds to the memo
    is sent to a new object with the renamed content. *)
Definition copied_since (h0 : list obj) (m m' : gmap addr addr)
    (h h' : list obj) : Prop :=
  (length h ≤ length h')%nat ∧
  m ⊆ m' ∧
  (∀ c, (c < length h)%nat → h' !! c = h !! c) ∧
  (∀ a b, m' !! a = Some b → m !! a = None →
     (length h ≤ b)%nat ∧
     ∃ o o', h0 !! a = Some o ∧ h' !! b = Some o' ∧ obj_renamed m' o o').

Definition copies (h0 : list obj)
    (cp : val → gmap addr addr → list obj →
          result (val * gmap addr addr * list obj)) : Prop :=
  ∀ x m h y m' h',
    val_in h0 x → copying h0 m h → cp x m h = Ok (y, m', h') →
    copying h0 m' h' ∧ copied_since h0 m m' h h' ∧ renamed m' x y.

(** [x] is nested at most [n] deep in [h]: an atom is nested at any depth,
    and a list or a dict one deeper than its items. Only a structure without
    cycles is nested at some depth. *)
Fixpoint nested (h : list obj) (n : nat) (x : val) : bool :=
  match x with
  | VRef a =>
      match n with
      | O => false
      | S k =>
          match h !! a with
          | Some o => forallb (nested h k) (obj_vals o)
          | None => false
          end
      end
  | _ => true
  end.

(** [y] in [h'] is a deep and independent copy of [x] in [h]: the objects of
    [h] are untouched, [y] is the image of [x] under a one-to-one renaming
    of addresses that sends each object it covers to a new object with the
    renamed content, and nothing that can be reached from [y] is an object
    of [h]. *)
Definition is_deep_copy (h h' : list obj) (x y : val) : Prop :=
  ∃ memo : gmap addr addr,
    preserved h h' ∧
    renamed memo x y ∧
    (∀ a b, memo !! a = Some b →
       (length h ≤ b)%nat ∧
       ∃ o o', h !! a = Some o ∧ h' !! b = Some o' ∧ obj_renamed memo o o') ∧
    (∀ a a' b, memo !! a = Some b → memo !! a' = Some b → a = a') ∧
    (∀ a, reach h' y a → (length h ≤ a)%nat).

(** The configuration of the logging package and the handlers that exist:
    what a record that is logged leaves alone. *)
Definition same_configuration (w w' : world) : Prop :=
  logging w' = logging w ∧ unwritable w' = unwritable w ∧
  streams w' = streams w ∧ handler_count w' = handler_count w.

(** A value that can be neither iterated nor subscripted. *)
Definition scalar (v : val) : Prop :=
  match v with
  | VNone | VBool _ | VInt _ | VFloat _ => True
  | _ => False
  end.

(** The responses [response["choices"][0]["message"]] fails on, with the
    exception it raises. *)
Inductive malformed (h : list obj) (response : val) : exn → Prop :=
  | not_subscriptable :
      scalar response → malformed h response TypeError
  | no_choices_key a kvs :
      response = VRef a → h !! a = Some (ODict kvs) →
      assoc "choices" kvs = None →
      malformed h response KeyError
  | choices_not_a_sequence choices :
      getitem_str h response "choices" = Ok choices → scalar choices →
      malformed h response TypeError
  | empty_choices choices a :
      getitem_str h response "choices" = Ok choices →
      choices = VRef a → h !! a = Some (OList []) →
      malformed h response IndexError
  | no_message_key choices choice a kvs :
      getitem_str h response "choices" = Ok choices →
      getitem_int h choices 0 = Ok choice →
      choice = VRef a → h !! a = Some (ODict kvs) →
      assoc "message" kvs = None →
      malformed h response KeyError.

Section Sessions.
Variable recursion_limit : nat.
Variable original_chat_completion_create : completion.

(** A run of the application: calls of the wrapper one after the other, with
    whatever hook is installed at each, counted when they return. *)
Inductive calls : world → world → nat → Prop :=
  | calls_none w : calls w w 0
  | calls_returned w w1 n messages edit_call kwargs response w2 :
      calls w w1 n →
      create_and_log recursion_limit original_chat_completion_create
        messages edit_call kwargs w1 = (Ok response, w2) →
      calls w w2 (S n)
  | calls_raised w w1 n messages edit_call kwargs e w2 :
      calls w w1 n →
      create_and_log recursion_limit original_chat_completion_create
        messages edit_call kwargs w1 = (Raise e, w2) →
      calls w w2 n.
End Sessions.

(** The hook a call through the patched attribute runs with: the one given
    at the call as [edit_call], if any, and else the one [patch_openai]
    bound. *)
Definition hook_in_force (bound : option hook) (kwargs : keywords)
  : option hook :=
  match assoc "edit_call" kwargs with
  | Some given => as_hook given
  | None => bound
  end.

(** The root logger's handlers are in sight of the channel: the channel
    propagates and the root logger has a handler. *)
Definition root_in_sight (L : logging_module) : Prop :=
  propagate (tricot_logger L) = true ∧ handlers (root_logger L) ≠ [].

(** ** A concrete run

    The caller holds [[{"role": "user", "content": "hi"}]]; the completion
    call answers hello. *)
Module Scenario.

Definition limit : nat := 50.

Definition strftime (t : Z) : string := "2024-05-01_12-00-00".

Definition store : list obj :=
  [ODict [("role", VStr "user"); ("content", VStr "hi")];
   OList [VRef 0]].

Definition messages : val := VRef 1.

(** The logging package as it is when nothing has configured it. *)
Definition unconfigured : logging_module :=
  Logging (Logger WARNING [] true false) (Logger NOTSET [] true false) 0.

Definition start : world :=
  World (Interp store 1000) unconfigured "/srv/app" ∅
        {["/proc/nowhere.log"]} [] ∅ ∅ ∅ 0 [].

(** A completion call that takes seven units of time and returns
    [{"choices": [{"message": {"role": "assistant", "content": "hello"}}]}]. *)
Definition hello : completion := λ _ _ i,
  let n := length (heap i) in
  (Ok (VRef (n + 3)),
   Interp (heap i ++
             [ODict [("role", VStr "assistant"); ("content", VStr "hello")];
              ODict [("message", VRef n)];
              OList [VRef (n + 1)];
              ODict [("choices", VRef (n + 2))]])
          (clock i + 7)).

(** A completion call that returns two choices,
    [{"choices": [{"message": {"role": "assistant", "content": "hello"}},
                  {"message": {"role": "assistant", "content": "goodbye"}}]}]. *)
Definition two_choices : completion := λ _ _ i,
  let n := length (heap i) in
  (Ok (VRef (n + 5)),
   Interp (heap i ++
             [ODict [("role", VStr "assistant"); ("content", VStr "hello")];
              ODict [("message", VRef n)];
              ODict [("role", VStr "assistant"); ("content", VStr "goodbye")];
              ODict [("message", VRef (n + 2))];
              OList [VRef (n + 1); VRef (n + 3)];
              ODict [("choices", VRef (n + 4))]])
          (clock i + 7)).

(** A completion call that returns [{"choices": []}]. *)
Definition no_choices : completion := λ _ _ i,
  let n := length (heap i) in
  (Ok (VRef (n + 1)),
   Interp (heap i ++ [OList []; ODict [("choices", VRef n)]]) (clock i + 7)).

(** A completion call that fails. *)
Definition unreachable : completion := λ _ _ i,
  (Raise (Exception "APIConnectionError"), Interp (heap i) (clock i + 30)).

(** A hook that appends a system message to the list it is given, in
    place, and returns that list; it takes three units of time. *)
Definition add_system : hook := λ x i,
  match x with
  | VRef a =>
      match heap i !! a with
      | Some (OList xs) =>
          let n := length (heap i) in
          (Ok x,
           Interp (<[a := OList (xs ++ [VRef n])]>
                     (heap i ++
                        [ODict [("role", VStr "system");
                                ("content", VStr "be brief")]]))
                  (clock i + 3))
      | _ => (Raise TypeError, i)
      end
  | _ => (Raise TypeError, i)
  end.

(** A hook that empties the list it is given, in place. *)
Definition forget : hook := λ x i,
  match x with
  | VRef a => (Ok x, Interp (<[a := OList []]> (heap i)) (clock i))
  | _ => (Raise TypeError, i)
  end.

(** The world after [new_log_file("logs/a.log")]. *)
Definition opened : world :=
  snd (new_log_file strftime (Some "logs/a.log") start).

(** The same, when the application has taken a reference to the channel's
    handler: [kept = logging.getLogger("TRICOT").handlers[0]]. *)
Definition kept : world :=
  World (py opened) (logging opened) (cwd opened) (files opened)
        (refused opened) (console opened) (streams opened) (dropped opened)
        {[0%nat]} (handler_count opened) (emitted opened).

(** The root logger has a console handler, as after
    [logging.basicConfig()]. *)
Definition with_root_handler : world :=
  World (Interp store 1000)
        (Logging (Logger WARNING [Handler 0 NOTSET None] true false)
                 (Logger NOTSET [] true false) 0)
        "/srv/app" ∅ ∅ [] ∅ ∅ ∅ 1 [].

(** The same, with the channel told not to propagate. *)
Definition not_propagating : world :=
  World (Interp store 1000)
        (Logging (Logger WARNING [Handler 0 NOTSET None] true false)
                 (Logger NOTSET [] false false) 0)
        "/srv/app" ∅ ∅ [] ∅ ∅ ∅ 1 [].

End Scenario.

(** ** Further runs *)
Module Cases.

(** The root logger gets a console handler after the log file was opened,
    as when the application calls [logging.basicConfig()] later on. *)
Definition reconfigured : world :=
  World (py Scenario.opened)
        (Logging (Logger WARNING [Handler 1 NOTSET None] true false)
                 (tricot_logger (logging Scenario.opened)) 0)
        (cwd Scenario.opened) (files Scenario.opened)
        (refused Scenario.opened) [] (streams Scenario.opened)
        (dropped Scenario.opened) (held Scenario.opened) 2 [].

(** The caller's list holds a bytes value. *)
Definition binary : world :=
  set_py (Interp [OList [VBytes [104; 105]]] 1000) Scenario.opened.

(** A completion call that returns [{"error": "overloaded"}]. *)
Definition garbled : completion := λ _ _ i,
  (Ok (VRef (length (heap i))),
   Interp (heap i ++ [ODict [("error", VStr "overloaded")]]) (clock i + 7)).

(** A hook that appends a system message to the list it is given, in
    place, and returns nothing. *)
Definition in_place : hook := λ x i,
  match Scenario.add_system x i with
  | (Ok _, i') => (Ok VNone, i')
  | (Raise e, i') => (Raise e, i')
  end.

End Cases.

(** ** The monad *)

Lemma bind_inv {A B} (c : W A) (k : A → W B) (w w' : world) (r : result B) :
  bind c k w = (r, w') →
  (∃ a w1, c w = (Ok a, w1) ∧ k a w1 = (r, w')) ∨
  (∃ e, c w = (Raise e, w') ∧ r = Raise e).
Proof.
  unfold bind. destruct (c w) as [[a|e] w1]; intros H.
  - left. eauto.
  - right. exists e. by inversion H.
Qed.

Lemma bind_ok {A B} (c : W A) (k : A → W B) (w w1 : world) (a : A) :
  c w = (Ok a, w1) → bind c k w = k a w1.
Proof. unfold bind. by intros ->. Qed.

Lemma bind_raise {A B} (c : W A) (k : A → W B) (w w1 : world) (e : exn) :
  c w = (Raise e, w1) → bind c k w = (Raise e, w1).
Proof. unfold bind. by intros ->. Qed.

(** ** The logging package *)

Lemma logger_eta (l : logger) :
  Logger (level l) (handlers l) (propagate l) (disabled l) = l.
Proof. by destruct l. Qed.

Lemma logging_eta (L : logging_module) :
  Logging (root_logger L) (tricot_logger L) (manager_disable L) = L.
Proof. by destruct L. Qed.

Lemma without_handlers_id (L : logging_module) :
  handlers (tricot_logger L) = [] → without_handlers L = L.
Proof.
  intros E. unfold without_handlers. simpl. rewrite <- E.
  by rewrite logger_eta, logging_eta.
Qed.

Lemma without_handlers_remove (L : logging_module) h t :
  handlers (tricot_logger L) = h :: t →
  without_handlers (removeHandler TRICOT h L) = without_handlers L.
Proof.
  intros E. unfold removeHandler, is_attached. simpl. rewrite E.
  rewrite bool_decide_eq_true_2 by (rewrite fmap_cons; apply list_elem_of_here).
  reflexivity.
Qed.

Lemma hasHandlers_own (L : logging_module) h t :
  handlers (tricot_logger L) = h :: t → hasHandlers TRICOT L = true.
Proof. intros E. unfold hasHandlers. simpl. by rewrite E. Qed.

Lemma world_eta (w : world) :
  World (py w) (logging w) (cwd w) (files w) (refused w) (console w)
        (streams w) (dropped w) (held w) (handler_count w) (emitted w) = w.
Proof. by destruct w. Qed.

Lemma stripped_id (w : world) :
  handlers (tricot_logger (logging w)) = [] → stripped w = w.
Proof.
  intros E. unfold stripped. rewrite E, (without_handlers_id _ E).
  rewrite fmap_nil, filter_nil, list_to_set_nil, (right_id_L ∅ (∪)).
  apply world_eta.
Qed.

Lemma removeHandler_first (L : logging_module) h t :
  handlers (tricot_logger L) = h :: t →
  removeHandler TRICOT h L =
    Logging (root_logger L)
            (Logger (level (tricot_logger L)) t (propagate (tricot_logger L))
                    (disabled (tricot_logger L)))
            (manager_disable L).
Proof.
  intros E. unfold removeHandler, is_attached. simpl. rewrite E.
  rewrite bool_decide_eq_true_2 by (rewrite fmap_cons; apply list_elem_of_here).
  simpl. by rewrite decide_True.
Qed.

(** One round of the loop, seen from its end. *)
Lemma stripped_release (w : world) h t :
  handlers (tricot_logger (logging w)) = h :: t →
  stripped (release h (set_logging (removeHandler TRICOT h (logging w)) w))
    = stripped w.
Proof.
  intros E. rewrite (removeHandler_first _ _ _ E).
  unfold release, referenced, stripped.
  destruct (decide _) as [Href|Href];
    cbn [set_logging logging held dropped py cwd files refused console
         streams handler_count emitted tricot_logger root_logger handlers]
      in *;
    rewrite E; unfold without_handlers;
    cbn [set_logger tricot_logger root_logger manager_disable level
         propagate disabled];
    f_equal; apply set_eq; intros i;
    rewrite !elem_of_union, !elem_of_list_to_set, !list_elem_of_filter,
      fmap_cons, !elem_of_cons, ?elem_of_singleton.
  - rewrite fmap_app, elem_of_app in Href. split; [tauto|].
    intros [?|(HP & [->|?])]; [tauto| |tauto].
    right. split; [done|]. destruct Href as [|[|]]; tauto.
  - rewrite fmap_app, elem_of_app in Href. split.
    + intros [[->|?]|?]; [|tauto|tauto]. right. split; [|by left]. tauto.
    + intros [?|(HP & [->|?])]; tauto.
Qed.

(** The loop always ends with the channel's own handlers gone, and dropped
    if nothing else refers to them; it ends in an [IndexError] exactly when
    [hasHandlers] still answers yes at that point, that is, when the channel
    propagates to a root logger with handlers. *)
Lemma remove_handlers_spec (w : world) :
  remove_handlers w =
    (if hasHandlers TRICOT (without_handlers (logging w))
     then Raise IndexError else Ok tt,
     stripped w).
Proof.
  funelim (remove_handlers w).
  - clear H Heqcall.
    assert (E : handlers (tricot_logger (logging w)) = []).
    { destruct (handlers (tricot_logger (logging w))) eqn:E; [done|].
      by rewrite (hasHandlers_own _ _ _ E) in e. }
    by rewrite (stripped_id w E), (without_handlers_id _ E), e.
  - clear H H0 Heqcall.
    by rewrite (stripped_id w e0), (without_handlers_id _ e0), e.
  - rewrite H. rewrite (stripped_release w h t E).
    assert (logging (release h (set_logging (removeHandler TRICOT h (logging w))
                                  w))
            = removeHandler TRICOT h (logging w)) as ->
      by (unfold release; by destruct (decide _)).
    by rewrite (without_handlers_remove _ h t E).
Qed.

Lemma hasHandlers_without (L : logging_module) :
  hasHandlers TRICOT (without_handlers L) =
    propagate (tricot_logger L) && bool_decide (handlers (root_logger L) ≠ []).
Proof.
  unfold hasHandlers, without_handlers. simpl.
  destruct (propagate (tricot_logger L)); [|done]. simpl.
  destruct (handlers (root_logger L)) eqn:E.
  - rewrite bool_decide_eq_false_2 by (intros ?; done). by destruct (propagate _).
  - by rewrite bool_decide_eq_true_2.
Qed.

Section SinkSteps.
Variable strftime : Z → string.

Lemma new_log_file_unfold (path : option string) (w : world) :
  new_log_file strftime path w =
    if hasHandlers TRICOT (drained (logging w))
    then (Raise IndexError, drained_world w)
    else
      match FileHandler (log_name strftime path w) (drained_world w) with
      | (Ok h, w1) => (Ok tt, set_logging (addHandler TRICOT h (logging w1)) w1)
      | (Raise e, w1) => (Raise e, w1)
      end.
Proof.
  unfold new_log_file, bind, drained, drained_world.
  destruct path as [p|]; simpl; unfold ret; simpl;
    rewrite remove_handlers_spec;
    destruct (hasHandlers TRICOT _); simpl; try done;
    destruct (FileHandler _ _) as [[h|e] w1]; done.
Qed.
End SinkSteps.

Lemma hasHandlers_drained (L : logging_module) :
  hasHandlers TRICOT (drained L) =
    propagate (tricot_logger L) && bool_decide (handlers (root_logger L) ≠ []).
Proof. unfold drained. by rewrite hasHandlers_without. Qed.

Lemma attach_drained (L : logging_module) (h : handler) :
  addHandler TRICOT h (drained L) =
    Logging (root_logger L)
            (Logger INFO [h] (propagate (tricot_logger L))
                    (disabled (tricot_logger L)))
            (manager_disable L).
Proof. done. Qed.

Lemma found_after_attach (L : logging_module) (h : handler) :
  hasHandlers TRICOT (drained L) = false →
  found_handlers (lineage TRICOT) (addHandler TRICOT h (drained L)) = [h].
Proof.
  rewrite hasHandlers_drained. intros H. simpl.
  destruct (propagate (tricot_logger L)); [|done]. simpl in *.
  apply bool_decide_eq_false in H.
  destruct (handlers (root_logger L)); [|by destruct H].
  by destruct (propagate (root_logger L)).
Qed.

(** A record on a channel whose only handler writes to [p] changes no other
    file and not the console; it is appended to [p] when the channel is
    enabled for it. *)
Lemma logger_info_single (w : world) (h : handler) (p : string) (line : json) :
  found_handlers (lineage TRICOT) (logging w) = [h] →
  baseFilename h = Some p →
  (∀ q, q ≠ p →
     files (snd (logger_info TRICOT line w)) !! q = files w !! q) ∧
  console (snd (logger_info TRICOT line w)) = console w ∧
  (isEnabledFor TRICOT INFO (logging w) = true → hlevel h ≤ INFO →
     files (snd (logger_info TRICOT line w)) !! p =
       Some (default [] (files w !! p) ++ [line])).
Proof.
  intros Hf Hp. unfold logger_info. cbn [record_emitted logging].
  destruct (isEnabledFor TRICOT INFO (logging w)) eqn:En; cbn [snd].
  - unfold callHandlers. cbn [record_emitted logging]. rewrite Hf.
    cbn [foldl]. destruct (decide (hlevel h ≤ INFO)) as [Hl|Hl].
    + unfold emit. rewrite Hp. cbn [files console record_emitted].
      split_and!; [|done|].
      * intros q Hq. by rewrite lookup_insert_ne.
      * intros _ _. by rewrite lookup_insert_eq.
    + split_and!; [done|done|]. intros _ ?. lia.
  - split_and!; [done|done|]. intros ?. done.
Qed.

Lemma elem_of_unwritable (path : string) (w : world) :
  path ∈ unwritable w ↔ has_nul path = false ∧ path ∈ refused w.
Proof. unfold unwritable. by rewrite elem_of_filter. Qed.

Section Sink.
Variable strftime : Z → string.
Local Abbreviation new_log_file := (new_log_file strftime).
Local Abbreviation log_path := (log_path strftime).
Local Abbreviation log_name := (log_name strftime).

(** The four ways a call of [new_log_file] can go. *)
Lemma new_log_file_run (path : option string) (w : world) :
  new_log_file path w =
    if hasHandlers TRICOT (drained (logging w))
    then (Raise IndexError, drained_world w)
    else if has_nul (log_path path w) then (Raise ValueError, drained_world w)
    else if decide (log_path path w ∈ refused w)
    then (Raise OSError, drained_world w)
    else
      let h := Handler (handler_count w) NOTSET (Some (log_path path w)) in
      (Ok tt,
       World (py w) (addHandler TRICOT h (drained (logging w))) (cwd w)
             (<[log_path path w := default [] (files w !! log_path path w)]>
                (files w))
             (refused w) (console w) ({[handler_count w]} ∪ streams w)
             (dropped (drained_world w)) (held w) (S (handler_count w))
             (emitted w)).
Proof.
  rewrite new_log_file_unfold.
  destruct (hasHandlers TRICOT (drained (logging w))); [done|].
  unfold FileHandler.
  change (abspath (cwd (drained_world w)) (log_name path w))
    with (log_path path w).
  destruct (has_nul (log_path path w)); [done|].
  change (refused (drained_world w)) with (refused w).
  by destruct (decide _).
Qed.

(** What a call of [new_log_file] that returns leaves behind. *)
Lemma new_log_file_ok (path : option string) (w w' : world) :
  new_log_file path w = (Ok tt, w') →
  let h := Handler (handler_count w) NOTSET (Some (log_path path w)) in
  logging w' = addHandler TRICOT h (drained (logging w)) ∧
  hasHandlers TRICOT (drained (logging w)) = false ∧
  handlers (tricot_logger (logging w')) = [h] ∧
  found_handlers (lineage TRICOT) (logging w') = [h] ∧
  level (tricot_logger (logging w')) = INFO ∧
  streams w' = {[handler_count w]} ∪ streams w ∧
  handler_count w' = S (handler_count w) ∧
  (∀ q, q ≠ log_path path w → files w' !! q = files w !! q) ∧
  files w' !! log_path path w = Some (default [] (files w !! log_path path w)) ∧
  console w' = console w ∧ emitted w' = emitted w ∧ py w' = py w ∧
  held w' = held w ∧ dropped w' = dropped (drained_world w) ∧
  cwd w' = cwd w ∧ refused w' = refused w ∧
  has_nul (log_path path w) = false ∧ log_path path w ∉ refused w.
Proof.
  rewrite new_log_file_run.
  destruct (hasHandlers TRICOT (drained (logging w))) eqn:Hh; [done|].
  destruct (has_nul (log_path path w)) eqn:Hnul; [done|].
  destruct (decide _) as [|Hn]; [done|].
  intros [= <-].
  cbn [logging streams handler_count files console emitted py held dropped
       cwd refused].
  split_and!; try done.
  - by apply found_after_attach.
  - intros q Hq. by rewrite lookup_insert_ne.
  - by rewrite lookup_insert_eq.
Qed.

(** C7. If the file cannot be opened for appending, and the loop before it
    ended without an error, the call raises the error of the open, no
    handler has been created or attached, and the channel is left without
    any handler, so that a record logged on it finds none: the handlers it
    had were taken off before the open. *)
Theorem new_log_file_open_fails (path : option string) (w : world) :
  (propagate (tricot_logger (logging w)) = true →
   handlers (root_logger (logging w)) = []) →
  log_path path w ∈ unwritable w →
  ∃ w', new_log_file path w = (Raise OSError, w') ∧
        handlers (tricot_logger (logging w')) = [] ∧
        found_handlers (lineage TRICOT) (logging w') = [] ∧
        handler_count w' = handler_count w ∧
        streams w' = streams w ∧
        files w' = files w.
Proof.
  intros Hloop [Hnul Hp]%elem_of_unwritable.
  rewrite new_log_file_run, hasHandlers_drained.
  assert (propagate (tricot_logger (logging w)) &&
          bool_decide (handlers (root_logger (logging w)) ≠ []) = false) as ->.
  { destruct (propagate _); [|done]. rewrite Hloop by done.
    by rewrite bool_decide_eq_false_2 by (intros ?; done). }
  rewrite Hnul, decide_True by done. eexists. split; [done|].
  split_and!; try done. cbn.
  destruct (propagate (tricot_logger (logging w))); [|done].
  rewrite Hloop by done. by destruct (propagate _).
Qed.

(** Whatever handlers the channel has of its own: when it propagates and
    the root logger has a handler, [hasHandlers] never turns false, and the
    loop ends in the [IndexError] of [logger.handlers[0]] once the channel's
    own handlers are gone. *)
Lemma new_log_file_under_root_handlers (path : option string) (w : world) :
  handlers (root_logger (logging w)) ≠ [] →
  propagate (tricot_logger (logging w)) = true →
  new_log_file path w = (Raise IndexError, drained_world w).
Proof.
  intros Hr Hp. rewrite new_log_file_unfold, hasHandlers_drained, Hp.
  by rewrite bool_decide_eq_true_2.
Qed.

(** C10, as amended. If the channel has no handler of its own, propagates
    to its parent (as it does unless it was told not to), and the root
    logger has a handler, the loop raises [IndexError]: no handler has been
    created or attached. *)
Theorem new_log_file_index_error (path : option string) (w : world) :
  handlers (tricot_logger (logging w)) = [] →
  handlers (root_logger (logging w)) ≠ [] →
  propagate (tricot_logger (logging w)) = true →
  ∃ w', new_log_file path w = (Raise IndexError, w') ∧
        handlers (tricot_logger (logging w')) = [] ∧
        handler_count w' = handler_count w ∧
        streams w' = streams w ∧
        files w' = files w.
Proof.
  intros _ Hr Hp. rewrite new_log_file_under_root_handlers by done.
  eexists. split; done.
Qed.

(** A handler the loop takes off the channel is closed afterwards exactly
    when it was already, or when nothing else refers to it. *)
Lemma drained_world_closed (w : world) (h : handler) :
  h ∈ handlers (tricot_logger (logging w)) →
  is_closed h (drained_world w) ↔ is_closed h w ∨ ¬ kept_elsewhere h w.
Proof.
  intros Hin. unfold is_closed, kept_elsewhere, drained_world, stripped.
  cbn [dropped set_logging held logging]. rewrite elem_of_union.
  rewrite elem_of_list_to_set, list_elem_of_filter.
  change (handlers (tricot_logger (setLevel TRICOT INFO (logging w))))
    with (handlers (tricot_logger (logging w))).
  change (handlers (root_logger (setLevel TRICOT INFO (logging w))))
    with (handlers (root_logger (logging w))).
  split.
  - intros [?|[[? ?] _]]; [by left|right]. intros [?|?]; done.
  - intros [?|Hk]; [by left|right]. split.
    + split; intros ?; apply Hk; [by left|by right].
    + by apply list_elem_of_fmap_2.
Qed.

(** C6, as amended. After every call of [new_log_file] that returns, the
    channel has exactly one handler, the new one: the handlers it had were
    taken off it. The code does not close them. A handler that was taken
    off is closed afterwards exactly when it was closed before or nothing
    else refers to it, neither the application nor the root logger: it is
    dropped then, as the handler of an earlier call of [new_log_file] is
    unless the application took a reference to it. A record logged after a
    second call changes no file but the one of the second call, so not the
    file of the first when that is another file, and not the console; it
    is appended to the second file when the channel is enabled for it. *)
Theorem new_log_file_single_destination
    (path1 path2 : option string) (w w1 w2 : world) :
  new_log_file path1 w = (Ok tt, w1) →
  new_log_file path2 w1 = (Ok tt, w2) →
  let h1 := Handler (handler_count w) NOTSET (Some (log_path path1 w)) in
  let h2 := Handler (handler_count w1) NOTSET (Some (log_path path2 w1)) in
  handlers (tricot_logger (logging w1)) = [h1] ∧
  handlers (tricot_logger (logging w2)) = [h2] ∧
  ¬ (h1 ∈ handlers (tricot_logger (logging w2))) ∧
  (∀ h, h ∈ handlers (tricot_logger (logging w)) →
     is_closed h w1 ↔ is_closed h w ∨ ¬ kept_elsewhere h w) ∧
  (is_closed h1 w2 ↔ is_closed h1 w1 ∨ ¬ kept_elsewhere h1 w1) ∧
  ∀ line : json,
    (∀ q, q ≠ log_path path2 w1 →
       files (snd (logger_info TRICOT line w2)) !! q = files w2 !! q) ∧
    (log_path path1 w ≠ log_path path2 w1 →
       files (snd (logger_info TRICOT line w2)) !! log_path path1 w
         = files w2 !! log_path path1 w) ∧
    console (snd (logger_info TRICOT line w2)) = console w2 ∧
    (disabled (tricot_logger (logging w)) = false →
     manager_disable (logging w) < INFO →
     files (snd (logger_info TRICOT line w2)) !! log_path path2 w1 =
       Some (default [] (files w2 !! log_path path2 w1) ++ [line])).
Proof.
  intros H1 H2 h1 h2.
  apply new_log_file_ok in H1
    as (HL1 & _ & Hh1 & _ & _ & Hs1 & Hc1 & _ & _ & _ & _ & _ & _ & Hd1 & _).
  apply new_log_file_ok in H2
    as (HL2 & _ & Hh2 & Hf2 & Hl2 & Hs2 & _ & _ & _ & _ & _ & _ & _ & Hd2 & _).
  fold h1 in Hh1, HL1. fold h2 in Hh2, Hf2, HL2.
  split_and!; try done.
  - rewrite Hh2. intros Hin%list_elem_of_singleton.
    assert (hid h1 = hid h2) as Hid by (by rewrite Hin).
    subst h1 h2. simpl in Hid. lia.
  - intros h Hin. unfold is_closed at 1. rewrite Hd1.
    by apply drained_world_closed.
  - unfold is_closed at 1. rewrite Hd2.
    apply drained_world_closed. rewrite Hh1. by left.
  - intros line.
    destruct (logger_info_single w2 h2 (log_path path2 w1) line Hf2 eq_refl)
      as (Ha & Hb & Hc).
    split_and!; try done.
    + intros Hne. by apply Ha.
    + intros Hd Hm. apply Hc; [|done].
      unfold isEnabledFor. rewrite HL2, HL1, !attach_drained. cbn.
      rewrite Hd. rewrite decide_False by (unfold INFO in *; lia).
      by rewrite bool_decide_eq_true_2.
Qed.
End Sink.

(** ** The store *)

Lemma preserved_refl (h : list obj) : preserved h h.
Proof. by intros a o. Qed.

Lemma preserved_trans (h1 h2 h3 : list obj) :
  preserved h1 h2 → preserved h2 h3 → preserved h1 h3.
Proof. intros H1 H2 a o Ha. eauto. Qed.

Lemma preserved_app (h l : list obj) : preserved h (h ++ l).
Proof. intros a o Ha. by apply lookup_app_l_Some. Qed.

Lemma dict_spec (v : val) (h : list obj) (r : val) (h' : list obj) :
  dict_ v h = Ok (r, h') →
  ∃ kvs, r = VRef (length h) ∧ h' = h ++ [ODict kvs] ∧
         ∀ k x, getitem_str h v k = Ok x → assoc k kvs = Some x.
Proof.
  unfold dict_, alloc. intros H.
  destruct v as [| | | |s|bs|a]; try done.
  - destruct (pairs_of h (chars s) []) as [kvs|]; [|done].
    inversion H; subst. eexists. split_and!; try done.
  - destruct bs; [|done]. inversion H; subst. eexists. split_and!; try done.
  - destruct (h !! a) as [[xs|kvs]|] eqn:Ha; [| |done].
    + destruct (pairs_of h xs []) as [kvs|]; [|done].
      inversion H; subst. eexists. split_and!; try done.
      intros k x. simpl. by rewrite Ha.
    + inversion H; subst. exists kvs. split_and!; try done.
      intros k x. simpl. rewrite Ha. by destruct (assoc k kvs); intros [= ->].
Qed.

(** ** Computations that stay within the interpreter state *)

Lemma set_py_id (w : world) : set_py (py w) w = w.
Proof. by destruct w. Qed.

Lemma py_only_bind {A B} (c : W A) (k : A → W B) :
  py_only c → (∀ a, py_only (k a)) → py_only (bind c k).
Proof.
  intros Hc Hk w r w' [(a & w1 & H1 & H2)|(e & H1 & _)]%bind_inv.
  - apply Hc in H1. apply Hk in H2.
    transitivity (set_py (py w') w1); [done|]. by rewrite H1.
  - by apply Hc in H1.
Qed.

Lemma py_only_ret {A} (a : A) : py_only (ret a).
Proof. intros w r w' [= _ <-]. by rewrite set_py_id. Qed.

Lemma py_only_read_heap {A} (f : list obj → result A) : py_only (read_heap f).
Proof. intros w r w' [= _ <-]. by rewrite set_py_id. Qed.

Lemma py_only_on_heap {A} (f : list obj → result (A * list obj)) :
  py_only (on_heap f).
Proof.
  intros w r w'. unfold on_heap.
  destruct (f _) as [[a h']|e]; intros [= _ <-]; [done|by rewrite set_py_id].
Qed.

Lemma py_only_foreign {A} (f : interp → result A * interp) :
  py_only (foreign f).
Proof. intros w r w'. unfold foreign. destruct (f _). by intros [= _ <-]. Qed.

Lemma py_only_time_time : py_only time_time.
Proof. intros w r w' [= _ <-]. by rewrite set_py_id. Qed.

Lemma py_only_new_object (o : obj) : py_only (new_object o).
Proof. apply py_only_on_heap. Qed.

Create HintDb py_only.
#[local] Hint Resolve py_only_ret py_only_read_heap py_only_on_heap
  py_only_foreign py_only_time_time py_only_new_object : py_only.

Ltac py_only :=
  repeat first
    [ apply py_only_bind; [|intros ?]
    | solve [eauto with py_only] ].

Lemma grows_bind {A B} (c : W A) (k : A → W B) :
  grows c → (∀ a, grows (k a)) → grows (bind c k).
Proof.
  intros Hc Hk w r w' [(a & w1 & H1 & H2)|(e & H1 & _)]%bind_inv.
  - exact (preserved_trans _ _ _ (Hc _ _ _ H1) (Hk _ _ _ _ H2)).
  - exact (Hc _ _ _ H1).
Qed.

Lemma grows_read_heap {A} (f : list obj → result A) : grows (read_heap f).
Proof. intros w r w' [= _ <-]. apply preserved_refl. Qed.

Lemma grows_new_object (o : obj) : grows (new_object o).
Proof. intros w r w' [= _ <-]. apply preserved_app. Qed.

Lemma grows_dict (v : val) : grows (on_heap (dict_ v)).
Proof.
  intros w r w'. unfold on_heap.
  destruct (dict_ v _) as [[a h']|e] eqn:E; intros [= _ <-].
  - apply dict_spec in E as (kvs & _ & -> & _). apply preserved_app.
  - apply preserved_refl.
Qed.

Lemma logger_info_py (line : json) (w : world) :
  py (snd (logger_info TRICOT line w)) = py w.
Proof.
  unfold logger_info. destruct (isEnabledFor _ _ _); [|done]. cbn [snd].
  unfold callHandlers.
  assert (∀ hs w0, py (foldl (λ w' h, if decide (hlevel h ≤ INFO)
                                      then emit line h w' else w') w0 hs)
                   = py w0) as Hfold.
  { induction hs as [|h hs IH]; intros w0; [done|]. simpl. rewrite IH.
    destruct (decide _); [|done]. unfold emit. by destruct (baseFilename h). }
  destruct (found_handlers _ _); [|by rewrite Hfold].
  by destruct (decide _).
Qed.

Lemma logger_info_emitted (line : json) (w : world) :
  emitted (snd (logger_info TRICOT line w)) = emitted w ++ [line].
Proof.
  unfold logger_info. destruct (isEnabledFor _ _ _); [|done]. cbn [snd].
  unfold callHandlers.
  assert (∀ hs w0, emitted (foldl (λ w' h, if decide (hlevel h ≤ INFO)
                                      then emit line h w' else w') w0 hs)
                   = emitted w0) as Hfold.
  { induction hs as [|h hs IH]; intros w0; [done|]. simpl. rewrite IH.
    destruct (decide _); [|done]. unfold emit. by destruct (baseFilename h). }
  destruct (found_handlers _ _); [|by rewrite Hfold].
  by destruct (decide _).
Qed.

Lemma logger_info_ok (line : json) (w : world) :
  logger_info TRICOT line w = (Ok tt, snd (logger_info TRICOT line w)).
Proof. unfold logger_info. by destruct (isEnabledFor _ _ _). Qed.

Section Steps.
Variable recursion_limit : nat.
Variable original_chat_completion_create : completion.
Local Abbreviation create_and_log :=
  (create_and_log recursion_limit original_chat_completion_create).
Local Abbreviation edited := (edited recursion_limit).
Local Abbreviation log_line := (log_line recursion_limit).
Local Abbreviation serialized := (serialized recursion_limit).

(** The wrapper is its steps in a row. *)
Lemma create_and_log_steps (messages : val) (edit_call : option hook)
    (kwargs : keywords) (w : world) :
  create_and_log messages edit_call kwargs w =
    (messages <- edited edit_call messages ;;
     now <- time_time ;;
     response <- foreign (original_chat_completion_create messages kwargs) ;;
     line <- log_line now messages response ;;
     logger_info TRICOT line ;;;
     ret response) w.
Proof.
  unfold create_and_log, edited, log_line,
    trace, top_message, serialized, bind.
  repeat match goal with
    | |- context [match ?c ?w with _ => _ end] => destruct (c w) as [[?|?] ?]
    end; reflexivity.
Qed.

Lemma py_only_edited ec m : py_only (edited ec m).
Proof. destruct ec; simpl; py_only. Qed.

Lemma py_only_log_line now m r : py_only (log_line now m r).
Proof.
  unfold log_line, trace, top_message, serialized.
  py_only.
Qed.

Lemma grows_log_line now m r : grows (log_line now m r).
Proof.
  unfold log_line, trace, top_message, serialized.
  repeat first
    [ apply grows_bind; [|intros ?]
    | apply grows_read_heap | apply grows_new_object | apply grows_dict ].
Qed.
End Steps.

Lemma foreign_inv {A} (f : interp → result A * interp) (w w' : world)
    (r : result A) :
  foreign f w = (r, w') → ∃ i, f (py w) = (r, i) ∧ w' = set_py i w.
Proof.
  unfold foreign. destruct (f (py w)) as [r0 i] eqn:E.
  intros [= <- <-]. eauto.
Qed.

Lemma foreign_run {A} (f : interp → result A * interp) (w : world)
    (r : result A) (i : interp) :
  f (py w) = (r, i) → foreign f w = (r, set_py i w).
Proof. unfold foreign. by intros ->. Qed.

Section Outcomes.
Variable recursion_limit : nat.
Variable original_chat_completion_create : completion.
Local Abbreviation create_and_log :=
  (create_and_log recursion_limit original_chat_completion_create).
Local Abbreviation edited := (edited recursion_limit).
Local Abbreviation log_line := (log_line recursion_limit).
Local Abbreviation serialized := (serialized recursion_limit).
Local Abbreviation outcome :=
  (outcome recursion_limit original_chat_completion_create).

Lemma create_and_log_outcome messages edit_call kwargs w r w' :
  create_and_log messages edit_call kwargs w = (r, w') ↔
  outcome messages edit_call kwargs w r w'.
Proof.
  rewrite create_and_log_steps. split.
  - intros [(m' & w1 & He & H)|(e & He & ->)]%bind_inv;
      [|by apply hook_failed].
    apply bind_inv in H as [(now & w1' & Hn & H)|(e & Hn & _)]; [|done].
    injection Hn as <- <-.
    apply bind_inv in H as [(resp & w2 & Ho & H)|(e & Ho & ->)].
    2:{ apply foreign_inv in Ho as (i2 & Ho & ->).
        by eapply completion_failed. }
    apply foreign_inv in Ho as (i2 & Ho & ->).
    apply bind_inv in H as [(line & w3 & Hl & H)|(e & Hl & ->)];
      [|by eapply record_failed].
    apply bind_inv in H as [([] & w4 & Hi & H)|(e & Hi & _)].
    2:{ by rewrite logger_info_ok in Hi. }
    rewrite logger_info_ok in Hi. injection Hi as <-.
    injection H as <- <-. by eapply logged.
  - intros [e w1 He|m' w1 e i2 He Ho|m' w1 resp i2 e w3 He Ho Hl
           |m' w1 resp i2 line w3 He Ho Hl].
    + by rewrite (bind_raise _ _ _ _ _ He).
    + rewrite (bind_ok _ _ _ _ _ He). unfold bind at 1. cbn [time_time].
      by rewrite (bind_raise _ _ _ _ _ (foreign_run _ _ _ _ Ho)).
    + rewrite (bind_ok _ _ _ _ _ He). unfold bind at 1. cbn [time_time].
      rewrite (bind_ok _ _ _ _ _ (foreign_run _ _ _ _ Ho)).
      by rewrite (bind_raise _ _ _ _ _ Hl).
    + rewrite (bind_ok _ _ _ _ _ He). unfold bind at 1. cbn [time_time].
      rewrite (bind_ok _ _ _ _ _ (foreign_run _ _ _ _ Ho)).
      rewrite (bind_ok _ _ _ _ _ Hl).
      by rewrite (bind_ok _ _ _ _ _ (logger_info_ok _ _)).
Qed.


(** C2, as amended. A call of the wrapper that returns has handed exactly
    one line to the channel, and that line is appended to the file of the
    channel's handler when the channel is enabled; a call that raises has
    handed it none and has written nothing. When the hook raises, or the
    completion call raises, the wrapper raises that same exception and
    leaves the world as the failing step left it. *)
Theorem exactly_one_record
    (messages : val) (edit_call : option hook) (kwargs : keywords)
    (w w' : world) (r : result val) :
  create_and_log messages edit_call kwargs w = (r, w') →
  match r with
  | Ok _ =>
      ∃ line, emitted w' = emitted w ++ [line] ∧
        ∀ h p, found_handlers (lineage TRICOT) (logging w) = [h] →
               baseFilename h = Some p → hlevel h ≤ INFO →
               isEnabledFor TRICOT INFO (logging w) = true →
               files w' !! p = Some (default [] (files w !! p) ++ [line])
  | Raise _ =>
      emitted w' = emitted w ∧ files w' = files w ∧ console w' = console w
  end ∧
  (∀ e w1, edited edit_call messages w = (Raise e, w1) →
     r = Raise e ∧ w' = w1) ∧
  (∀ forwarded w1 e i2,
     edited edit_call messages w = (Ok forwarded, w1) →
     original_chat_completion_create forwarded kwargs (py w1)
       = (Raise e, i2) →
     r = Raise e ∧ w' = set_py i2 w1).
Proof.
  intros H. apply create_and_log_outcome in H. split_and!.
  - destruct H as [e w1 He|m' w1 e i2 He Ho|m' w1 resp i2 e w3 He Ho Hl
                  |m' w1 resp i2 line w3 He Ho Hl].
    + apply py_only_edited in He. by rewrite He.
    + apply py_only_edited in He. by rewrite He.
    + apply py_only_edited in He. apply py_only_log_line in Hl.
      by rewrite Hl, He.
    + apply py_only_edited in He. apply py_only_log_line in Hl.
      assert (emitted w3 = emitted w ∧ logging w3 = logging w ∧
              files w3 = files w) as (Hem & Hlog & Hfi)
        by (by rewrite Hl, He).
      exists line. rewrite logger_info_emitted, Hem. split; [done|].
      intros h p Hf Hp Hlv Hen. rewrite <- Hlog in Hf, Hen.
      destruct (logger_info_single w3 h p line Hf Hp) as (_ & _ & Hfile).
      rewrite <- Hfi. by apply Hfile.
  - intros e w1 He.
    destruct H as [e' w1' He'|m' w1' e' i2 He' Ho|m' w1' resp i2 e' w3 He' Ho Hl
                  |m' w1' resp i2 line w3 He' Ho Hl];
      rewrite He in He'; inversion He'; by subst.
  - intros m' w1 e i2 He Ho.
    destruct H as [e' w1' He'|m'' w1' e' i2' He' Ho'
                  |m'' w1' resp i2' e' w3 He' Ho' Hl
                  |m'' w1' resp i2' line w3 He' Ho' Hl];
      rewrite He in He'; inversion He'; subst;
      rewrite Ho in Ho'; inversion Ho'; by subst.
Qed.
End Outcomes.

(** ** Serialization *)

Lemma encode_items_app (enc : val → result json) (xs : list val) (y : val)
    (js' : list json) :
  encode_items enc (xs ++ [y]) = Ok js' →
  ∃ js j, encode_items enc xs = Ok js ∧ enc y = Ok j ∧ js' = js ++ [j].
Proof.
  revert js'. induction xs as [|x xs IH]; intros js'; simpl.
  - destruct (enc y) as [j|]; [|done]. intros [= <-]. by exists [], j.
  - destruct (enc x) as [j0|]; [|done].
    destruct (encode_items enc (xs ++ [y])) as [js0|]; [|done].
    intros [= <-]. destruct (IH js0 eq_refl) as (js & j & -> & -> & ->).
    by exists (j0 :: js), j.
Qed.

Lemma encode_items_length (enc : val → result json) (xs : list val)
    (js : list json) :
  encode_items enc xs = Ok js → length js = length xs.
Proof.
  revert js. induction xs as [|x xs IH]; intros js; simpl.
  - by intros [= <-].
  - destruct (enc x) as [j|]; [|done].
    destruct (encode_items enc xs) as [js0|]; [|done].
    intros [= <-]. simpl. by rewrite (IH js0).
Qed.

(** A field of a dict is serialized into the field of the same name. *)
Lemma encode_items_field (enc : val → result json)
    (kvs : list (string * val)) (js : list json) (k : string) (x : val) :
  encode_items enc (kvs.*2) = Ok js →
  assoc k kvs = Some x →
  ∃ j, assoc k (zip (kvs.*1) js) = Some j ∧ enc x = Ok j.
Proof.
  revert js. induction kvs as [|[k' x'] kvs IH]; intros js; [by intros _ ?|].
  rewrite !fmap_cons. cbn [encode_items snd fst assoc].
  destruct (enc x') as [j0|] eqn:E0; [|by intros [=]].
  destruct (encode_items enc (kvs.*2)) as [js0|]; [|by intros [=]].
  intros [= <-]. cbn [zip zip_with assoc]. destruct (decide (k = k')).
  - intros [= <-]. eauto.
  - intros Hk. by apply IH.
Qed.

Lemma read_heap_inv {A} (f : list obj → result A) (w w' : world) (r : result A) :
  read_heap f w = (r, w') → f (heap (py w)) = r ∧ w' = w.
Proof. by intros [= <- <-]. Qed.

Section Lines.
Variable recursion_limit : nat.
Variable original_chat_completion_create : completion.
Local Abbreviation create_and_log :=
  (create_and_log recursion_limit original_chat_completion_create).
Local Abbreviation edited := (edited recursion_limit).
Local Abbreviation log_line := (log_line recursion_limit).
Local Abbreviation serialized := (serialized recursion_limit).
Local Abbreviation outcome :=
  (outcome recursion_limit original_chat_completion_create).

Lemma top_message_inv (response : val) (w w' : world) (r : result val) :
  top_message response w = (r, w') →
  w' = w ∧
  r = result_bind (getitem_str (heap (py w)) response "choices") (λ choices,
      result_bind (getitem_int (heap (py w)) choices 0) (λ choice,
      getitem_str (heap (py w)) choice "message")).
Proof.
  unfold top_message, bind, read_heap.
  destruct (getitem_str _ response _) as [c|]; simpl; [|by intros [= <- <-]].
  destruct (getitem_int _ c _) as [c0|]; simpl; by intros [= <- <-].
Qed.

(** What a logged line is made of. *)
Lemma log_line_inv (c : Z) (messages response : val) (w w3 : world)
    (line : json) :
  log_line (VFloat c) messages response w = (Ok line, w3) →
  let h := heap (py w) in
  let reply := length h in
  let t := S reply in
  let rec := S t in
  ∃ items message kvs,
    unpack h messages = Ok items ∧
    top_message response w = (Ok message, w) ∧
    (∀ k x, getitem_str h message k = Ok x → assoc k kvs = Some x) ∧
    heap (py w3) =
      h ++ [ODict kvs; OList (items ++ [VRef reply]);
            ODict [("timestamp", VFloat c); ("messages", VRef t)]] ∧
    json_dumps recursion_limit (heap (py w3)) (VRef rec) = Ok line ∧
    dict_ message h = Ok (VRef reply, h ++ [ODict kvs]).
Proof.
  intros H h reply t rec. unfold log_line, trace in H.
  apply bind_inv in H as [(tr & w2 & Ht & H)|(e & _ & ?)]; [|done].
  apply bind_inv in Ht as [(items & w0 & Hu & Ht)|(e & _ & ?)]; [|done].
  apply read_heap_inv in Hu as [Hu ->].
  apply bind_inv in Ht as [(message & w0 & Hm & Ht)|(e & _ & ?)]; [|done].
  pose proof Hm as Hm'. apply top_message_inv in Hm' as [-> _].
  apply bind_inv in Ht as [(rp & w1 & Hd & Ht)|(e & _ & ?)]; [|done].
  unfold on_heap in Hd.
  destruct (dict_ message (heap (py w))) as [[rp' h1]|] eqn:Ed; [|done].
  injection Hd as -> <-. pose proof Ed as Ed'.
  apply dict_spec in Ed as (kvs & -> & -> & Hk).
  injection Ht as <- <-.
  unfold serialized in H.
  apply bind_inv in H as [(rc & w4 & Hr & H)|(e & _ & ?)]; [|done].
  injection Hr as <- <-.
  apply read_heap_inv in H as [H ->].
  exists items, message, kvs. revert H. cbn.
  rewrite !length_app. cbn. rewrite <- !app_assoc. cbn.
  rewrite !Nat.add_1_r. intros H. by split_and!.
Qed.

(** The serialization of a record laid out as [log_line] lays it out. *)
Lemma record_json (h : list obj) (c : Z) (items : list val)
    (reply t rec : addr) (line : json) :
  t ≠ rec →
  h !! rec = Some (ODict [("timestamp", VFloat c); ("messages", VRef t)]) →
  h !! t = Some (OList (items ++ [VRef reply])) →
  json_dumps recursion_limit h (VRef rec) = Ok line →
  ∃ d js jm,
    recursion_limit = S (S (S d)) ∧
    encode_items (encode (S d) h [t; rec]) items = Ok js ∧
    encode (S d) h [t; rec] (VRef reply) = Ok jm ∧
    line = JObj [("timestamp", JFloat c); ("messages", JArr (js ++ [jm]))].
Proof.
  intros Hne Hrec Ht. unfold json_dumps.
  destruct recursion_limit as [|d1]; [done|]. simpl.
  rewrite Hrec. simpl.
  destruct d1 as [|d2]; [done|]. simpl.
  rewrite decide_False by (intros ?%list_elem_of_singleton; done).
  rewrite Ht. simpl.
  destruct (encode_items _ (items ++ _)) as [js'|] eqn:E; [|done].
  simpl. intros [= <-].
  apply encode_items_app in E as (js & jm & Hjs & Hjm & ->).
  destruct d2 as [|d]; [done|].
  by exists d, js, jm.
Qed.
End Lines.

(** [response["choices"][0]["message"]] returns for a dict whose
    ["choices"] is a list that is not empty and whose first item is a dict
    with a ["message"], and it returns that message. *)
Lemma top_message_first_choice (response message : val) (w w' : world) :
  top_message response w = (Ok message, w') →
  ∃ rd rkvs cs ch rest ckvs,
    response = VRef rd ∧
    heap (py w) !! rd = Some (ODict rkvs) ∧
    assoc "choices" rkvs = Some (VRef cs) ∧
    heap (py w) !! cs = Some (OList (VRef ch :: rest)) ∧
    heap (py w) !! ch = Some (ODict ckvs) ∧
    assoc "message" ckvs = Some message.
Proof.
  intros [_ H]%top_message_inv. symmetry in H. revert H.
  destruct response as [| | | | | |rd]; try done. cbn [getitem_str].
  destruct (heap (py w) !! rd) as [[?|rkvs]|] eqn:Erd; try done.
  destruct (assoc "choices" rkvs) as [choices|] eqn:Ec; [|done].
  cbn [result_bind].
  destruct choices as [| | | |s|bs|cs]; try done.
  - cbn [getitem_int]. destruct (py_index _ 0); [|done].
    destruct (chars s !! _) as [c|] eqn:E; [|done]. cbn [result_bind].
    apply list_elem_of_lookup_2 in E.
    assert (∀ s c, c ∈ chars s → ∃ t, c = VStr t) as Hchars.
    { clear. induction s as [|a s IH]; intros c; simpl.
      - by intros ?%elem_of_nil.
      - intros [->|?]%elem_of_cons; eauto. }
    by destruct (Hchars _ _ E) as [t ->].
  - cbn [getitem_int]. destruct (py_index _ 0); [|done].
    by destruct (bs !! _).
  - cbn [getitem_int]. destruct (heap (py w) !! cs) as [[xs|?]|] eqn:Ecs;
      try done.
    unfold py_index.
    destruct (decide (0 ≤ 0 < Z.of_nat (length xs))) as [Hl|Hl].
    2:{ destruct (decide _) as [?|?]; [lia|done]. }
    destruct xs as [|choice rest]; [simpl in Hl; lia|]. cbn [result_bind].
    change (Z.to_nat 0) with 0%nat. cbn [lookup list_lookup result_bind].
    destruct choice as [| | | | | |ch]; try done. cbn [getitem_str].
    destruct (heap (py w) !! ch) as [[?|ckvs]|] eqn:Ech; try done.
    destruct (assoc "message" ckvs) as [m|] eqn:Em; [|done].
    intros [= ->]. by exists rd, rkvs, cs, ch, rest, ckvs.
Qed.

Section Logged.
Variable recursion_limit : nat.
Variable original_chat_completion_create : completion.
Local Abbreviation create_and_log :=
  (create_and_log recursion_limit original_chat_completion_create).
Local Abbreviation edited := (edited recursion_limit).
Local Abbreviation log_line := (log_line recursion_limit).
Local Abbreviation serialized := (serialized recursion_limit).
Local Abbreviation outcome :=
  (outcome recursion_limit original_chat_completion_create).

(** The messages that are sent on: the ones given when no hook is bound,
    and otherwise what the hook returns for a deep copy of them. *)
Lemma edited_inv (edit_call : option hook) (messages forwarded : val)
    (w w1 : world) :
  edited edit_call messages w = (Ok forwarded, w1) →
  match edit_call with
  | None => forwarded = messages ∧ w1 = w
  | Some f =>
      ∃ copy h1,
        deepcopy recursion_limit messages (heap (py w)) = Ok (copy, h1) ∧
        f copy (Interp h1 (clock (py w))) = (Ok forwarded, py w1)
  end.
Proof.
  destruct edit_call as [f|]; simpl.
  - intros [(copy & w0 & Hc & Hf)|(e & _ & ?)]%bind_inv; [|done].
    unfold on_heap in Hc.
    destruct (deepcopy _ _ _) as [[copy' h1]|]; [|done].
    injection Hc as -> <-. apply foreign_inv in Hf as (i & Hf & ->).
    by exists copy, h1.
  - by intros [= <- <-].
Qed.

(** What a call that returns has logged. *)
Lemma logged_run
    (messages : val) (edit_call : option hook) (kwargs : keywords)
    (w w' : world) (r : val) :
  create_and_log messages edit_call kwargs w = (Ok r, w') →
  ∃ (forwarded : val) (w1 : world) (i2 : interp) (items : list val)
    (message : val) (line : json) (js : list json) (jm : json)
    (reply t rec : addr) (d : nat),
    edited edit_call messages w = (Ok forwarded, w1) ∧
    match edit_call with
    | None => forwarded = messages
    | Some f =>
        ∃ copy h1,
          deepcopy recursion_limit messages (heap (py w)) = Ok (copy, h1) ∧
          f copy (Interp h1 (clock (py w))) = (Ok forwarded, py w1)
    end ∧
    original_chat_completion_create forwarded kwargs (py w1) = (Ok r, i2) ∧
    unpack (heap i2) forwarded = Ok items ∧
    top_message r (set_py i2 w1) = (Ok message, set_py i2 w1) ∧
    emitted w' = emitted w ++ [line] ∧
    json_field "messages" line = Some (JArr (js ++ [jm])) ∧
    let h := heap (py w') in
    h !! t = Some (OList (items ++ [VRef reply])) ∧
    (length (heap i2) ≤ reply)%nat ∧
    encode_items (encode (S d) h [t; rec]) items = Ok js ∧
    encode (S d) h [t; rec] (VRef reply) = Ok jm ∧
    ∀ k x, getitem_str (heap i2) message k = Ok x →
      getitem_str h (VRef reply) k = Ok x ∧
      ∃ j, json_field k jm = Some j ∧
           encode d h [reply; t; rec] x = Ok j.
Proof.
  intros H. apply create_and_log_outcome in H.
  inversion H as [| | |forwarded w1 resp i2 line w3 He Ho Hl]; subst.
  pose proof (py_only_edited _ _ _ _ _ _ He) as Hw1.
  pose proof (py_only_log_line _ _ _ _ _ _ _ Hl) as Hw3.
  apply log_line_inv in Hl as (items & message & kvs & Hu & Hm & Hk & Hh & Hj & _).
  cbn [set_py py heap] in Hu, Hk, Hh, Hj.
  set (n := length (heap i2)) in *.
  assert (heap (py w3) !! n = Some (ODict kvs)) as Hn.
  { rewrite Hh. by rewrite lookup_app_r, Nat.sub_diag by (unfold n; lia). }
  assert (heap (py w3) !! S n = Some (OList (items ++ [VRef n]))) as Ht.
  { rewrite Hh. rewrite lookup_app_r by (unfold n; lia).
    by replace (S n - length (heap i2))%nat with 1%nat by (unfold n; lia). }
  assert (heap (py w3) !! S (S n) =
          Some (ODict [("timestamp", VFloat (clock (py w1)));
                       ("messages", VRef (S n))])) as Hr.
  { rewrite Hh. rewrite lookup_app_r by (unfold n; lia).
    by replace (S (S n) - length (heap i2))%nat with 2%nat by (unfold n; lia). }
  destruct (record_json recursion_limit _ _ _ n (S n) (S (S n)) line
              ltac:(lia) Hr Ht Hj) as (d & js & jm & Hlim & Hjs & Hjm & ->).
  exists forwarded, w1, i2, items, message.
  exists (JObj [("timestamp", JFloat (clock (py w1)));
                ("messages", JArr (js ++ [jm]))]).
  exists js, jm, n, (S n), (S (S n)), d.
  rewrite logger_info_py, logger_info_emitted. cbv zeta.
  split_and!; try done.
  - apply edited_inv in He. destruct edit_call; [done|by destruct He].
  - by rewrite Hw3, Hw1.
  - intros k x Hx. specialize (Hk k x Hx). split.
    + unfold getitem_str. by rewrite Hn, Hk.
    + revert Hjm. cbn [encode].
      rewrite decide_False by (rewrite !elem_of_cons, elem_of_nil; lia).
      rewrite Hn. cbn [obj_vals json_with].
      destruct (encode_items (encode d _ _) _) as [js'|] eqn:E; [|done].
      intros [= <-].
      destruct (encode_items_field _ _ _ _ _ E Hk) as (j & Hj1 & Hj2).
      by exists j.
Qed.

(** C3. For a call that returns, when what was sent on (what the hook
    returned when one is bound, the given messages otherwise) is a list: the
    response is a dict whose ["choices"] is a list, and the logged line is
    the object of the timestamp and of the messages, which are the
    serializations of the items of that list, one for one and in order,
    followed by that of one more message. That message is a new dict with
    the fields of the ["message"] of the first choice, whatever choices
    follow it: the same keys in the same order, each with the serialization
    of the same value, ["role"] and ["content"] among them. *)
Theorem trace_composition
    (messages : val) (edit_call : option hook) (kwargs : keywords)
    (w w' w1 : world) (r forwarded : val) (i2 : interp) (a : addr)
    (items : list val) :
  create_and_log messages edit_call kwargs w = (Ok r, w') →
  edited edit_call messages w = (Ok forwarded, w1) →
  original_chat_completion_create forwarded kwargs (py w1) = (Ok r, i2) →
  forwarded = VRef a →
  heap i2 !! a = Some (OList items) →
  match edit_call with
  | None => forwarded = messages
  | Some f =>
      ∃ copy h1,
        deepcopy recursion_limit messages (heap (py w)) = Ok (copy, h1) ∧
        f copy (Interp h1 (clock (py w))) = (Ok forwarded, py w1)
  end ∧
  ∃ (rd cs ch : addr) (rkvs ckvs : list (string * val)) (rest : list val)
    (message : val) (js : list json) (jm : json) (d : nat),
    r = VRef rd ∧
    heap i2 !! rd = Some (ODict rkvs) ∧
    assoc "choices" rkvs = Some (VRef cs) ∧
    heap i2 !! cs = Some (OList (VRef ch :: rest)) ∧
    heap i2 !! ch = Some (ODict ckvs) ∧
    assoc "message" ckvs = Some message ∧
    emitted w' =
      emitted w ++
      [JObj [("timestamp", JFloat (clock (py w1)));
             ("messages", JArr (js ++ [jm]))]] ∧
    length js = length items ∧
    recursion_limit = S (S (S d)) ∧
    let h := heap (py w') in
    let reply := length (heap i2) in
    let t := S reply in
    let rec := S t in
    h !! t = Some (OList (items ++ [VRef reply])) ∧
    encode_items (encode (S d) h [t; rec]) items = Ok js ∧
    encode (S d) h [t; rec] (VRef reply) = Ok jm ∧
    ∀ m mkvs, message = VRef m → heap i2 !! m = Some (ODict mkvs) →
      h !! reply = Some (ODict mkvs) ∧
      ∃ vs, encode_items (encode d h [reply; t; rec]) (mkvs.*2) = Ok vs ∧
            jm = JObj (zip (mkvs.*1) vs).
Proof.
  intros H He Ho -> Ha. apply create_and_log_outcome in H.
  inversion H as [| | |forwarded' w1' resp i2' line w3 He' Ho' Hl]; subst.
  rewrite He in He'. injection He' as <- <-.
  rewrite Ho in Ho'. injection Ho' as <-.
  pose proof (py_only_edited _ _ _ _ _ _ He) as Hw1.
  pose proof (py_only_log_line _ _ _ _ _ _ _ Hl) as Hw3.
  apply log_line_inv in Hl
    as (items' & message & kvs & Hu & Hm & _ & Hh & Hj & Hd).
  cbn [set_py py heap] in Hu, Hh, Hj, Hd. cbn [unpack] in Hu.
  rewrite Ha in Hu. injection Hu as <-.
  apply top_message_first_choice in Hm
    as (rd & rkvs & cs & ch & rest & ckvs & -> & Hrd & Hcs & Hch & Hck & Hmsg).
  cbn [set_py py heap] in Hrd, Hch, Hck.
  set (n := length (heap i2)) in *.
  assert (heap (py w3) !! n = Some (ODict kvs)) as Hn.
  { rewrite Hh. by rewrite lookup_app_r, Nat.sub_diag by (unfold n; lia). }
  assert (heap (py w3) !! S n = Some (OList (items ++ [VRef n]))) as Ht.
  { rewrite Hh. rewrite lookup_app_r by (unfold n; lia).
    by replace (S n - length (heap i2))%nat with 1%nat by (unfold n; lia). }
  assert (heap (py w3) !! S (S n) =
          Some (ODict [("timestamp", VFloat (clock (py w1)));
                       ("messages", VRef (S n))])) as Hr.
  { rewrite Hh. rewrite lookup_app_r by (unfold n; lia).
    by replace (S (S n) - length (heap i2))%nat with 2%nat by (unfold n; lia). }
  destruct (record_json recursion_limit _ _ _ n (S n) (S (S n)) line
              ltac:(lia) Hr Ht Hj) as (d & js & jm & Hlim & Hjs & Hjm & ->).
  split.
  { apply edited_inv in He. destruct edit_call; [done|by destruct He]. }
  exists rd, cs, ch, rkvs, ckvs, rest, message, js, jm, d.
  rewrite logger_info_py, logger_info_emitted. cbv zeta.
  split_and!; try done.
  - by rewrite Hw3, Hw1.
  - by apply encode_items_length in Hjs.
  - intros m mkvs -> Hmk. unfold dict_, alloc in Hd. rewrite Hmk in Hd.
    injection Hd as Hd. apply app_inv_head in Hd. injection Hd as <-.
    split; [done|].
    revert Hjm. cbn [encode].
    rewrite decide_False by (rewrite !elem_of_cons, elem_of_nil; lia).
    rewrite Hn. cbn [obj_vals json_with].
    destruct (encode_items (encode d _ _) _) as [vs|] eqn:E; [|done].
    intros [= <-]. by exists vs.
Qed.

(** C9, as amended. For a call that returns, the [timestamp] field of the
    logged line is the reading of the clock in the state the completion call
    is started from, whatever time that call then takes. With a hook bound
    that is the state the hook returned in, so the reading is later than the
    entry of the wrapper by the time the copy and the hook took; without a
    hook it is the reading at the entry of the wrapper. *)
Theorem timestamp_before_forwarding
    (messages : val) (edit_call : option hook) (kwargs : keywords)
    (w w' : world) (r : val) :
  create_and_log messages edit_call kwargs w = (Ok r, w') →
  ∃ (forwarded : val) (w1 : world) (i2 : interp) (line : json),
    edited edit_call messages w = (Ok forwarded, w1) ∧
    match edit_call with
    | None => forwarded = messages ∧ w1 = w
    | Some f =>
        ∃ copy h1,
          deepcopy recursion_limit messages (heap (py w)) = Ok (copy, h1) ∧
          f copy (Interp h1 (clock (py w))) = (Ok forwarded, py w1)
    end ∧
    original_chat_completion_create forwarded kwargs (py w1) = (Ok r, i2) ∧
    emitted w' = emitted w ++ [line] ∧
    json_field "timestamp" line = Some (JFloat (clock (py w1))) ∧
    (edit_call = None → clock (py w1) = clock (py w)).
Proof.
  intros H.
  destruct (logged_run _ _ _ _ _ _ H)
    as (forwarded & w1 & i2 & items & message & line & js & jm & reply & t
        & rec & d & He & _ & Ho & _ & _ & Hem & _).
  apply create_and_log_outcome in H.
  inversion H as [| | |forwarded' w1' resp i2' line' w3 He' Ho' Hl]; subst.
  rewrite He in He'. injection He' as <- <-.
  rewrite Ho in Ho'. injection Ho' as <-.
  rewrite logger_info_emitted in Hem.
  pose proof (py_only_edited _ _ _ _ _ _ He) as Hw1.
  pose proof (py_only_log_line _ _ _ _ _ _ _ Hl) as Hw3.
  assert (emitted w3 = emitted w) as Hem3 by (by rewrite Hw3, Hw1).
  rewrite Hem3 in Hem. apply app_inv_head in Hem. injection Hem as <-.
  apply log_line_inv in Hl as (items' & message' & kvs & Hu & Hm & Hk & Hh & Hj & _).
  cbn [set_py py heap] in Hh, Hj.
  set (n := length (heap i2)) in *.
  assert (heap (py w3) !! S n = Some (OList (items' ++ [VRef n]))) as Ht.
  { rewrite Hh. rewrite lookup_app_r by (unfold n; lia).
    by replace (S n - length (heap i2))%nat with 1%nat by (unfold n; lia). }
  assert (heap (py w3) !! S (S n) =
          Some (ODict [("timestamp", VFloat (clock (py w1)));
                       ("messages", VRef (S n))])) as Hr.
  { rewrite Hh. rewrite lookup_app_r by (unfold n; lia).
    by replace (S (S n) - length (heap i2))%nat with 2%nat by (unfold n; lia). }
  destruct (record_json recursion_limit _ _ _ n (S n) (S (S n)) line'
              ltac:(lia) Hr Ht Hj) as (d' & js' & jm' & _ & _ & _ & ->).
  exists forwarded, w1, i2. eexists. split_and!; try done.
  - by apply edited_inv in He.
  - by rewrite logger_info_emitted, Hem3.
  - done.
  - intros ->. by injection He as _ ->.
Qed.

(** C8. When the response of the completion call has an empty list of
    choices, the wrapper raises ([IndexError], once the messages sent on can
    be iterated) in the state the completion call returned, and nothing is
    logged or written. *)
Theorem zero_choices_fail
    (messages : val) (edit_call : option hook) (kwargs : keywords)
    (w w1 : world) (forwarded response : val) (i2 : interp)
    (choices : addr) :
  edited edit_call messages w = (Ok forwarded, w1) →
  original_chat_completion_create forwarded kwargs (py w1)
    = (Ok response, i2) →
  getitem_str (heap i2) response "choices" = Ok (VRef choices) →
  heap i2 !! choices = Some (OList []) →
  ∃ e, create_and_log messages edit_call kwargs w
         = (Raise e, set_py i2 w1) ∧
       (∀ items, unpack (heap i2) forwarded = Ok items → e = IndexError) ∧
       emitted (set_py i2 w1) = emitted w ∧
       files (set_py i2 w1) = files w ∧
       console (set_py i2 w1) = console w.
Proof.
  intros He Ho Hc Hz.
  assert (∃ e, log_line (VFloat (clock (py w1))) forwarded response
                 (set_py i2 w1) = (Raise e, set_py i2 w1) ∧
               ∀ items, unpack (heap i2) forwarded = Ok items →
                        e = IndexError) as (e & Hl & Hidx).
  { unfold log_line, trace, top_message, bind, read_heap.
    cbn [set_py py heap].
    destruct (unpack (heap i2) forwarded) as [items|e0].
    - rewrite Hc. cbn [getitem_int]. rewrite Hz. cbn. eauto.
    - exists e0. split; [done|]. by intros ? [=]. }
  exists e. split_and!; [|done|..].
  - apply create_and_log_outcome. by eapply record_failed.
  - apply py_only_edited in He. by rewrite He.
  - apply py_only_edited in He. by rewrite He.
  - apply py_only_edited in He. by rewrite He.
Qed.
End Logged.

(** ** deepcopy *)

Lemma obj_vals_with (o : obj) (ys : list val) :
  length ys = length (obj_vals o) → obj_vals (obj_with o ys) = ys.
Proof.
  destruct o as [xs|kvs]; simpl; [done|].
  rewrite length_fmap. intros Hl. apply snd_zip. rewrite length_fmap. lia.
Qed.

Lemma renamed_mono (m m' : gmap addr addr) (x y : val) :
  m ⊆ m' → renamed m x y → renamed m' x y.
Proof.
  intros Hs. destruct x; simpl; try done.
  intros (b & Hb & ->). exists b. split; [|done].
  by eapply lookup_weaken.
Qed.

Lemma obj_renamed_mono (m m' : gmap addr addr) (o o' : obj) :
  m ⊆ m' → obj_renamed m o o' → obj_renamed m' o o'.
Proof.
  intros Hs [H1 H2]. split; [done|].
  eapply Forall2_impl; [done|]. intros x y. by apply renamed_mono.
Qed.

Lemma copied_since_refl h0 m h : copied_since h0 m m h h.
Proof.
  split_and!; try done. intros a b Ha Hn. by rewrite Ha in Hn.
Qed.

Lemma copied_since_trans h0 m m1 m2 h h1 h2 :
  copied_since h0 m m1 h h1 → copied_since h0 m1 m2 h1 h2 →
  copied_since h0 m m2 h h2.
Proof.
  intros (Hl1 & Hs1 & Hk1 & Hc1) (Hl2 & Hs2 & Hk2 & Hc2). split_and!.
  - lia.
  - by etrans.
  - intros c Hc. rewrite Hk2 by lia. by apply Hk1.
  - intros a b Hab Hn. destruct (m1 !! a) as [b1|] eqn:E1.
    + assert (b1 = b) as ->.
      { pose proof (lookup_weaken _ _ _ _ E1 Hs2) as E2. congruence. }
      destruct (Hc1 a b E1 Hn) as (Hb & o & o' & Ho & Ho' & Hr).
      split; [done|]. exists o, o'. split_and!; [done| |].
      * rewrite Hk2; [done|]. by apply lookup_lt_Some in Ho'.
      * by eapply obj_renamed_mono.
    + destruct (Hc2 a b Hab E1) as (Hb & o & o' & Ho & Ho' & Hr).
      split; [lia|]. by exists o, o'.
Qed.

Lemma prefix_insert (h0 h : list obj) (b : nat) (o : obj) :
  h0 `prefix_of` h → (length h0 ≤ b)%nat → h0 `prefix_of` <[b:=o]> h.
Proof.
  intros [k ->] Hb. rewrite insert_app_r_alt by done. by eexists.
Qed.

Lemma prefix_lookup (h0 h : list obj) (a : nat) :
  h0 `prefix_of` h → (a < length h0)%nat → h !! a = h0 !! a.
Proof. intros [k ->] Ha. by rewrite lookup_app_l. Qed.

(** Entering an object: it gets a new, empty copy and an entry in the
    memo. *)
Lemma copying_alloc (h0 : list obj) (m : gmap nat nat) (h : list obj)
    (a : nat) (o : obj) :
  copying h0 m h → (a < length h0)%nat →
  copying h0 (<[a:=length h]> m) (h ++ [o]).
Proof.
  intros (Hp & Hm & Hi) Ha. split_and!.
  - by apply prefix_app_r.
  - intros a' b'. rewrite length_app. simpl.
    destruct (decide (a = a')) as [<-|Hne].
    + rewrite lookup_insert_eq. intros [= <-].
      apply prefix_length in Hp. lia.
    + rewrite lookup_insert_ne by done. intros H'.
      apply Hm in H'. lia.
  - intros a1 a2 b'.
    destruct (decide (a = a1)) as [<-|Hne1],
             (decide (a = a2)) as [<-|Hne2];
      rewrite ?lookup_insert_eq, ?lookup_insert_ne by done; try done.
    + intros [= <-] H'. apply Hm in H'. lia.
    + intros H' [= <-]. apply Hm in H'. lia.
    + apply Hi.
Qed.

Section Copy.
Variable h0 : list obj.
Hypothesis h0_closed : heap_closed h0.

Lemma copy_items_copy cp :
  copies h0 cp →
  ∀ xs m h ys m' h',
    Forall (val_in h0) xs → copying h0 m h →
    copy_items cp xs m h = Ok (ys, m', h') →
    copying h0 m' h' ∧ copied_since h0 m m' h h' ∧
    Forall2 (renamed m') xs ys.
Proof.
  intros Hcp. induction xs as [|x xs IH]; intros m h ys m' h' Hxs Hc; simpl.
  - intros [= <- <- <-]. split_and!; [done|apply copied_since_refl|done].
  - apply Forall_cons in Hxs as [Hx Hxs].
    destruct (cp x m h) as [[[y m1] h1]|] eqn:E1; [|done].
    destruct (copy_items cp xs m1 h1) as [[[ys' m2] h2]|] eqn:E2; [|done].
    intros [= <- <- <-].
    destruct (Hcp _ _ _ _ _ _ Hx Hc E1) as (Hc1 & Hs1 & Hr1).
    destruct (IH _ _ _ _ _ Hxs Hc1 E2) as (Hc2 & Hs2 & Hr2).
    split_and!; [done|by eapply copied_since_trans|].
    constructor; [|done]. eapply renamed_mono; [|done]. apply Hs2.
Qed.

Lemma deepcopy_rec_copy (d : nat) : copies h0 (deepcopy_rec d).
Proof.
  induction d as [d IH] using lt_wf_ind.
  intros x m h y m' h' Hx Hc.
  destruct d as [|[|d]]; [done|done|].
  destruct x as [| | | | | |a];
    try (intros [= <- <- <-];
         split_and!; [done|apply copied_since_refl|done]).
  simpl. destruct (m !! a) as [b|] eqn:Ea.
  { intros [= <- <- <-].
    split_and!; [done|apply copied_since_refl|by exists b]. }
  simpl in Hx. pose proof Hc as (Hp & Hm & Hi).
  rewrite (prefix_lookup h0 h a Hp Hx).
  destruct (h0 !! a) as [o|] eqn:Eo; [|done].
  destruct d as [|d']; [done|]. set (d := S d') in *.
  unfold alloc.
  destruct (copy_items _ _ _ _) as [[[ys m1] h1]|] eqn:E; [|done].
  intros [= <- <- <-].
  assert (copying h0 (<[a:=length h]> m) (h ++ [obj_with o []])) as Hc0
    by (by apply copying_alloc).
  destruct (copy_items_copy _ (IH d ltac:(lia)) _ _ _ _ _ _
              (h0_closed a o Eo) Hc0 E)
    as ((Hp1 & Hm1 & Hi1) & (Hl1 & Hs1 & Hk1 & Hd1) & Hr).
  rewrite length_app in Hl1, Hk1. simpl in Hl1, Hk1.
  assert (m1 !! a = Some (length h)) as Ha1.
  { eapply lookup_weaken; [|done]. apply lookup_insert_eq. }
  assert (length ys = length (obj_vals o)) as Hlen.
  { symmetry. by eapply Forall2_length. }
  split_and!.
  - split_and!.
    + apply prefix_insert; [done|]. apply prefix_length in Hp. lia.
    + intros a' b' H'. rewrite length_insert. by apply Hm1.
    + done.
  - split_and!.
    + rewrite length_insert. lia.
    + etrans; [|done]. by apply insert_subseteq.
    + intros c Hlt. rewrite list_lookup_insert_ne by lia.
      rewrite Hk1 by lia. by rewrite lookup_app_l.
    + intros a' b' Hab Hn. destruct (decide (a = a')) as [<-|Hne].
      * assert (b' = length h) as -> by congruence.
        split; [done|]. exists o, (obj_with o ys). split_and!; [done| |].
        -- rewrite list_lookup_insert_eq; [done|]. lia.
        -- split; by rewrite obj_vals_with.
      * assert (<[a:=length h]> m !! a' = None) as Hn'
          by (by rewrite lookup_insert_ne).
        destruct (Hd1 a' b' Hab Hn') as (Hb & o1 & o1' & Ho1 & Ho1' & Hr1).
        rewrite length_app in Hb. simpl in Hb.
        split; [lia|]. exists o1, o1'. split_and!; [done| |done].
        rewrite list_lookup_insert_ne by lia. done.
  - by exists (length h).
Qed.
End Copy.

(** What can be reached from a renamed value lies in the range of the
    renaming, when every object in that range has renamed content. *)
Lemma reach_in_range (m : gmap addr addr) (h h' : list obj) (y : val)
    (c : addr) :
  (∀ a b, m !! a = Some b →
     ∃ o o', h !! a = Some o ∧ h' !! b = Some o' ∧ obj_renamed m o o') →
  reach h' y c →
  (∀ b, y = VRef b → ∃ a, m !! a = Some b) →
  ∃ a, m !! a = Some c.
Proof.
  intros Hm. induction 1 as [b|b o' x c Hb Hx Hr IH]; intros Hy.
  - by apply Hy.
  - destruct (Hy b eq_refl) as (a & Ha).
    destruct (Hm a b Ha) as (o & o'' & Ho & Ho'' & _ & Hren).
    rewrite Hb in Ho''. injection Ho'' as <-.
    apply IH. intros b1 ->.
    apply list_elem_of_lookup in Hx as [i Hi].
    destruct (Forall2_lookup_r _ _ _ _ _ Hren Hi) as (x0 & _ & Hx0).
    destruct x0; simpl in Hx0; try done.
    destruct Hx0 as (b2 & Hb2 & [= ->]). eauto.
Qed.

Lemma deepcopy_is_deep_copy (limit : nat) (x y : val) (h h' : list obj) :
  heap_closed h → val_in h x →
  deepcopy limit x h = Ok (y, h') →
  is_deep_copy h h' x y.
Proof.
  intros Hcl Hx. unfold deepcopy.
  destruct (deepcopy_rec limit x ∅ h) as [[[y' m] h1]|] eqn:E; [|done].
  intros [= <- <-].
  assert (copying h ∅ h) as Hc0.
  { split_and!; [done| |]; intros ? *; by rewrite lookup_empty. }
  destruct (deepcopy_rec_copy h Hcl limit _ _ _ _ _ _ Hx Hc0 E)
    as ((Hp & Hm & Hi) & (Hl & _ & Hk & Hd) & Hr).
  assert (∀ a b, m !! a = Some b →
            ∃ o o', h !! a = Some o ∧ h1 !! b = Some o' ∧ obj_renamed m o o')
    as Hall.
  { intros a b Hab. by destruct (Hd a b Hab (lookup_empty _)) as [_ ?]. }
  exists m. split_and!.
  - intros a o Ha. rewrite Hk; [done|]. by apply lookup_lt_Some in Ha.
  - done.
  - intros a b Hab. split; [|by apply Hall]. apply Hm in Hab. lia.
  - done.
  - intros c Hc.
    destruct (reach_in_range m h h1 y' c Hall Hc) as (a & Ha).
    + intros b ->. destruct x; simpl in Hr; try done.
      destruct Hr as (b' & Hb' & [= ->]). eauto.
    + apply Hm in Ha. lia.
Qed.

Section Total.
Variable h0 : list obj.
Hypothesis h0_closed : heap_closed h0.

Lemma copy_items_total cp (xs : list val) :
  copies h0 cp →
  Forall (λ x, val_in h0 x ∧
               ∀ m h, copying h0 m h → ∃ y m' h', cp x m h = Ok (y, m', h'))
         xs →
  ∀ m h, copying h0 m h →
    ∃ ys m' h', copy_items cp xs m h = Ok (ys, m', h').
Proof.
  intros Hcp. induction 1 as [|x xs [Hx Hret] _ IH]; intros m h Hc; simpl.
  - by eexists _, _, _.
  - destruct (Hret m h Hc) as (y & m1 & h1 & E1). rewrite E1.
    destruct (Hcp _ _ _ _ _ _ Hx Hc E1) as (Hc1 & _ & _).
    destruct (IH m1 h1 Hc1) as (ys & m2 & h2 & E2).
    rewrite E2. by eexists _, _, _.
Qed.

(** The copy of a value nested [n] deep returns when [2 * n + 2] levels of
    the call stack are left: every level of nesting takes two. *)
Lemma deepcopy_rec_total (n : nat) :
  ∀ frames x m h,
    nested h0 n x = true → copying h0 m h → (2 * n + 2 ≤ frames)%nat →
    ∃ y m' h', deepcopy_rec frames x m h = Ok (y, m', h').
Proof.
  induction n as [|n IH]; intros frames x m h Hn Hc Hf;
    (destruct frames as [|[|d]]; [lia|lia|]);
    (destruct x as [| | | | | |a]; try (eexists _, _, _; reflexivity));
    [done|].
  cbn [nested] in Hn. destruct (h0 !! a) as [o|] eqn:Eo; [|done].
  cbn [deepcopy_rec]. destruct (m !! a) as [b|] eqn:Ea; [by eexists _, _, _|].
  pose proof Hc as (Hp & Hm & Hi).
  assert (a < length h0)%nat as Ha by (by eapply lookup_lt_Some).
  rewrite (prefix_lookup h0 h a Hp Ha), Eo.
  destruct d as [|d']; [lia|]. set (d := S d') in *.
  unfold alloc.
  assert (copying h0 (<[a:=length h]> m) (h ++ [obj_with o []])) as Hc0
    by (by apply copying_alloc).
  destruct (copy_items_total (deepcopy_rec d) (obj_vals o)
              (deepcopy_rec_copy h0 h0_closed d)) with
    (m := <[a:=length h]> m) (h := h ++ [obj_with o []])
    as (ys & m' & h' & E); [|done|].
  { apply Forall_forall. intros x Hx. split.
    - pose proof (h0_closed a o Eo) as Hall.
      by eapply Forall_forall in Hall.
    - intros m1 h1 Hc1. apply IH; [|done|unfold d; lia].
      rewrite forallb_forall in Hn. apply Hn.
      by apply list_elem_of_In. }
  rewrite E. by eexists _, _, _.
Qed.
End Total.

(** [deepcopy] returns on a well-formed store for a value nested [n] deep
    when [2 * n + 2] levels of the call stack are left. *)
Lemma deepcopy_total (limit n : nat) (x : val) (h : list obj) :
  heap_closed h → nested h n x = true → (2 * n + 2 ≤ limit)%nat →
  ∃ y h', deepcopy limit x h = Ok (y, h').
Proof.
  intros Hcl Hn Hl. unfold deepcopy.
  destruct (deepcopy_rec_total h Hcl n limit x ∅ h Hn) as (y & m & h' & E).
  - split_and!; [done| |]; intros ? *; by rewrite lookup_empty.
  - done.
  - rewrite E. by eexists _, _.
Qed.

(** A deep copy serializes as the original does. *)
Lemma deep_copy_same_json (h h' : list obj) (x y : val) :
  is_deep_copy h h' x y →
  ∀ d, encode d h' [] y = encode d h [] x.
Proof.
  intros (m & _ & Hxy & Hm & Hinj & _) d.
  assert (∀ d ms ms' x y,
            Forall2 (λ a b, m !! a = Some b) ms ms' →
            renamed m x y →
            encode d h' ms' y = encode d h ms x) as Hgen.
  { clear x y Hxy d.
    induction d as [|d IH]; intros ms ms' x y Hms Hxy; [done|].
    destruct x as [| | | | | |a]; simpl in Hxy; try (by subst y).
    destruct Hxy as (b & Hab & ->). cbn [encode].
    assert (b ∈ ms' ↔ a ∈ ms) as Hin.
    { split.
      - intros [i Hi]%list_elem_of_lookup.
        destruct (Forall2_lookup_r _ _ _ _ _ Hms Hi) as (a' & Ha' & Hb').
        rewrite (Hinj a a' b Hab Hb'). by eapply list_elem_of_lookup_2.
      - intros [i Hi]%list_elem_of_lookup.
        destruct (Forall2_lookup_l _ _ _ _ _ Hms Hi) as (b' & Hb' & Hab').
        assert (b' = b) as -> by congruence.
        by eapply list_elem_of_lookup_2. }
    destruct (decide (b ∈ ms')) as [Hb|Hb], (decide (a ∈ ms)) as [Ha|Ha];
      try done; try (exfalso; tauto).
    destruct (Hm a b Hab) as (_ & o & o' & Ho & Ho' & Hwith & Hren).
    rewrite Ho, Ho'.
    assert (∀ xs ys, Forall2 (renamed m) xs ys →
              encode_items (encode d h' (b :: ms')) ys
              = encode_items (encode d h (a :: ms)) xs) as Hitems.
    { induction 1 as [|x0 y0 xs ys Hx0 _ IHxs]; [done|]. simpl.
      rewrite (IH (a :: ms) (b :: ms') x0 y0) by (by constructor || done).
      by rewrite IHxs. }
    rewrite (Hitems _ _ Hren).
    destruct (encode_items _ _) as [js|]; [|done].
    f_equal. apply Forall2_length in Hren. rewrite Hwith.
    destruct o as [xs|kvs]; [done|]. simpl in *.
    rewrite fst_zip; [done|].
    rewrite length_fmap in Hren. rewrite length_fmap. lia. }
  by apply Hgen.
Qed.

Section Hook.
Variable recursion_limit : nat.
Variable original_chat_completion_create : completion.
Local Abbreviation create_and_log :=
  (create_and_log recursion_limit original_chat_completion_create).
Local Abbreviation edited := (edited recursion_limit).
Local Abbreviation log_line := (log_line recursion_limit).
Local Abbreviation outcome :=
  (outcome recursion_limit original_chat_completion_create).

(** A hook that works on what it is given leaves the objects of the caller
    as they are: it is given a copy that shares nothing with them. *)
Lemma edited_preserves (edit_call : option hook) (messages : val)
    (w w1 : world) (r : result val) :
  heap_closed (heap (py w)) → val_in (heap (py w)) messages →
  (∀ f, edit_call = Some f → hook_frame f) →
  edited edit_call messages w = (r, w1) →
  preserved (heap (py w)) (heap (py w1)).
Proof.
  intros Hcl Hx Hf. destruct edit_call as [f|]; simpl.
  2:{ intros [= _ <-]. apply preserved_refl. }
  unfold bind, on_heap.
  destruct (deepcopy _ _ _) as [[copy h1]|] eqn:Ed.
  2:{ intros [= _ <-]. apply preserved_refl. }
  intros (i & Hi & ->)%foreign_inv. cbn [set_heap set_py py heap] in *.
  destruct (deepcopy_is_deep_copy _ _ _ _ _ Hcl Hx Ed)
    as (m & Hp & _ & _ & _ & Hfresh).
  intros a o Ha.
  apply (Hf f eq_refl _ _ _ _ Hi a o); cbn [heap].
  - by apply Hp.
  - intros Hr%Hfresh. apply lookup_lt_Some in Ha. lia.
Qed.

Lemma outcome_preserves (edit_call : option hook) (messages : val)
    (kwargs : keywords) (w w' : world) (r : result val) :
  completion_frame original_chat_completion_create →
  (∀ r1 w1, edited edit_call messages w = (r1, w1) →
            preserved (heap (py w)) (heap (py w1))) →
  outcome messages edit_call kwargs w r w' →
  preserved (heap (py w)) (heap (py w')).
Proof.
  intros Hc He [e w1 H1|m' w1 e i2 H1 H2|m' w1 resp i2 e w3 H1 H2 H3
               |m' w1 resp i2 line w3 H1 H2 H3].
  - by eapply He.
  - eapply preserved_trans; [by eapply He|]. by eapply Hc.
  - eapply preserved_trans; [by eapply He|].
    eapply preserved_trans; [by eapply Hc|].
    by apply grows_log_line in H3.
  - rewrite logger_info_py.
    eapply preserved_trans; [by eapply He|].
    eapply preserved_trans; [by eapply Hc|].
    by apply grows_log_line in H3.
Qed.

(** C4. With a hook bound, on a well-formed store: the copy is made whenever
    the messages are nested [n] deep and [2 * n + 2] levels of the call
    stack are left (a list of dicts of strings is nested two deep); the hook
    is called with it, a deep and independent copy of the messages that
    serializes as they do, and the hook's result is handled as the messages
    of a call without a hook. If the hook changes nothing but what it can
    reach from its argument, and the completion call changes no existing
    object, then every object that existed when the wrapper was called is
    unchanged when it returns or raises. *)
Theorem hook_gets_deep_copy
    (f : hook) (messages : val) (kwargs : keywords) (w : world) :
  heap_closed (heap (py w)) →
  val_in (heap (py w)) messages →
  hook_frame f →
  completion_frame original_chat_completion_create →
  (∀ n, nested (heap (py w)) n messages = true →
        (2 * n + 2 ≤ recursion_limit)%nat →
        ∃ copy h1,
          deepcopy recursion_limit messages (heap (py w)) = Ok (copy, h1)) ∧
  (∀ copy h1,
     deepcopy recursion_limit messages (heap (py w)) = Ok (copy, h1) →
     is_deep_copy (heap (py w)) h1 messages copy ∧
     (∀ d, encode d h1 [] copy = encode d (heap (py w)) [] messages) ∧
     create_and_log messages (Some f) kwargs w =
       (forwarded <- foreign (f copy) ;;
        create_and_log forwarded None kwargs) (set_heap h1 w)) ∧
  (∀ r w', create_and_log messages (Some f) kwargs w = (r, w') →
           preserved (heap (py w)) (heap (py w'))).
Proof.
  intros Hcl Hx Hf Hc. split_and!.
  - intros n. by apply deepcopy_total.
  - intros copy h1 Hd.
    pose proof (deepcopy_is_deep_copy _ _ _ _ _ Hcl Hx Hd) as Hcopy.
    split_and!; [done|by apply deep_copy_same_json|].
    unfold create_and_log, bind, on_heap. rewrite Hd.
    destruct (foreign (f copy) (set_heap h1 w)) as [[m'|e] w1]; reflexivity.
  - intros r w' H. apply create_and_log_outcome in H.
    eapply outcome_preserves; [done| |done].
    intros r1 w1. apply edited_preserves; [done|done|].
    by intros f' [= <-].
Qed.
End Hook.

Lemma without_key_absent (k : string) (kwargs : keywords) :
  assoc k kwargs = None → without_key k kwargs = kwargs.
Proof.
  unfold without_key. induction kwargs as [|[k' v] kwargs IH]; [done|].
  cbn [assoc]. destruct (decide (k = k')) as [|Hne]; [done|]. intros H.
  rewrite filter_cons. destruct (decide _) as [|Hn]; [by rewrite IH|].
  destruct Hn. simpl. congruence.
Qed.

Section Installer.
Variable recursion_limit : nat.
Variable OPENAI_IS_PRE_1_0_0 : bool.
Variable original_chat_completion_create : completion.
Local Abbreviation create_and_log :=
  (create_and_log recursion_limit original_chat_completion_create).
Local Abbreviation edited := (edited recursion_limit).
Local Abbreviation patch_openai := (patch_openai OPENAI_IS_PRE_1_0_0).
Local Abbreviation chat_completion :=
  (chat_completion recursion_limit OPENAI_IS_PRE_1_0_0
     original_chat_completion_create).

(** A call through the patched attribute, with keywords that do not give
    the messages a second time. *)
Lemma patched_call (bound : option hook) (openai : openai_module)
    (messages : val) (kwargs : keywords) :
  assoc "messages" kwargs = None →
  chat_completion (patch_openai bound openai) messages kwargs
    = create_and_log messages (hook_in_force bound kwargs)
        (without_key "edit_call" kwargs).
Proof.
  intros Hm. unfold patch_openai, chat_completion, call, hook_in_force.
  destruct OPENAI_IS_PRE_1_0_0; cbn [ChatCompletion_create
    chat_completions_create]; rewrite Hm;
    (destruct (assoc "edit_call" kwargs) eqn:E;
       [done|by rewrite without_key_absent]).
Qed.

(** What a call of the wrapper that returns has done: the hook it runs with
    was called on a deep copy of the messages, or the messages were taken as
    they are when there is none; the function the library exposed when the
    module was loaded was called once, on the result; one line was
    logged. *)
Lemma returned_call (messages : val) (edit_call : option hook)
    (kwargs : keywords) (w w' : world) (response : val) :
  create_and_log messages edit_call kwargs w = (Ok response, w') →
  ∃ forwarded w1 i2 line,
    match edit_call with
    | None => forwarded = messages ∧ w1 = w
    | Some f =>
        ∃ copy h1,
          deepcopy recursion_limit messages (heap (py w)) = Ok (copy, h1) ∧
          f copy (Interp h1 (clock (py w))) = (Ok forwarded, py w1)
    end ∧
    original_chat_completion_create forwarded kwargs (py w1)
      = (Ok response, i2) ∧
    emitted w' = emitted w ++ [line].
Proof.
  intros H. apply create_and_log_outcome in H.
  inversion H as [| | |forwarded w1 resp i2 line w3 He Ho Hl]; subst.
  exists forwarded, w1, i2, line. split_and!; [|done|].
  - by apply edited_inv in He.
  - rewrite logger_info_emitted.
    apply py_only_edited in He. apply py_only_log_line in Hl.
    by rewrite Hl, He.
Qed.

(** C5, as amended. Patching twice leaves the module as patching with the
    second hook alone does. A call through the patched attribute is then one
    call of [create_and_log] with the hook in force, which is the second
    hook unless the call itself gives an [edit_call]: when the call
    returns, that hook and no other was called, on a deep copy of the
    messages; the function the library exposed when the module was loaded
    was called once, on what the hook returned and with the keywords of the
    call less [edit_call], and its response is returned; one line was
    logged. The first hook has no part in it. *)
Theorem patch_openai_last_wins
    (first second : option hook) (openai : openai_module)
    (messages : val) (kwargs : keywords) (w w' : world) (r : result val) :
  assoc "messages" kwargs = None →
  chat_completion (patch_openai second (patch_openai first openai))
    messages kwargs w = (r, w') →
  patch_openai second (patch_openai first openai)
    = patch_openai second openai ∧
  (assoc "edit_call" kwargs = None →
   hook_in_force second kwargs = second ∧
   without_key "edit_call" kwargs = kwargs) ∧
  create_and_log messages (hook_in_force second kwargs)
    (without_key "edit_call" kwargs) w = (r, w') ∧
  ∀ response, r = Ok response →
    ∃ forwarded w1 i2 line,
      match hook_in_force second kwargs with
      | None => forwarded = messages ∧ w1 = w
      | Some f =>
          ∃ copy h1,
            deepcopy recursion_limit messages (heap (py w)) = Ok (copy, h1) ∧
            f copy (Interp h1 (clock (py w))) = (Ok forwarded, py w1)
      end ∧
      original_chat_completion_create forwarded
        (without_key "edit_call" kwargs) (py w1) = (Ok response, i2) ∧
      emitted w' = emitted w ++ [line].
Proof.
  intros Hm. rewrite patched_call by done. intros Hrun. split_and!.
  - unfold patch_openai. by destruct OPENAI_IS_PRE_1_0_0.
  - intros He. unfold hook_in_force. rewrite He.
    by rewrite without_key_absent.
  - done.
  - intros response ->. by apply returned_call.
Qed.
End Installer.

(** ** Records and the configuration *)

Lemma emit_configuration (line : json) (h : handler) (w : world) :
  same_configuration w (emit line h w).
Proof. unfold emit. by destruct (baseFilename h). Qed.

Lemma same_configuration_trans (w1 w2 w3 : world) :
  same_configuration w1 w2 → same_configuration w2 w3 →
  same_configuration w1 w3.
Proof.
  intros (? & ? & ? & ?) (? & ? & ? & ?). unfold same_configuration.
  split_and!; congruence.
Qed.

Lemma same_configuration_py (i : interp) (w : world) :
  same_configuration w (set_py i w).
Proof. done. Qed.

Lemma deliveries_configuration (line : json) (hs : list handler) (w : world) :
  same_configuration w
    (foldl (λ w' h, if decide (hlevel h ≤ INFO) then emit line h w' else w')
           w hs).
Proof.
  revert w. induction hs as [|h hs IH]; intros w; [done|]. simpl.
  eapply same_configuration_trans; [|apply IH].
  destruct (decide _); [apply emit_configuration|done].
Qed.

Lemma logger_info_configuration (line : json) (w : world) :
  same_configuration w (snd (logger_info TRICOT line w)).
Proof.
  unfold logger_info. destruct (isEnabledFor _ _ _); [|done]. cbn [snd].
  unfold callHandlers.
  destruct (found_handlers _ _) eqn:E.
  - by destruct (decide _).
  - exact (deliveries_configuration line _ (record_emitted line w)).
Qed.

Lemma deliveries_other_file (line : json) (hs : list handler) (w : world)
    (q : string) :
  (∀ h, h ∈ hs → baseFilename h ≠ Some q) →
  files (foldl (λ w' h, if decide (hlevel h ≤ INFO) then emit line h w'
                        else w') w hs) !! q
    = files w !! q.
Proof.
  revert w. induction hs as [|h hs IH]; intros w Hq; [done|]. simpl.
  rewrite IH by (intros h' ?; apply Hq; by right).
  destruct (decide _); [|done]. unfold emit.
  destruct (baseFilename h) as [p|] eqn:Ep; [|done]. cbn [files].
  rewrite lookup_insert_ne; [done|].
  intros ->. by apply (Hq h); [left|].
Qed.

(** A record is written to the files of the handlers it finds, and to no
    other file. *)
Lemma logger_info_other_file (line : json) (w : world) (q : string) :
  (∀ h, h ∈ found_handlers (lineage TRICOT) (logging w) →
        baseFilename h ≠ Some q) →
  files (snd (logger_info TRICOT line w)) !! q = files w !! q.
Proof.
  intros Hq. unfold logger_info. destruct (isEnabledFor _ _ _); [|done].
  cbn [snd]. unfold callHandlers. cbn [record_emitted logging].
  destruct (found_handlers _ _) eqn:E.
  - by destruct (decide _).
  - by rewrite deliveries_other_file.
Qed.

(** A record on a channel that is not enabled for it, or that finds no
    handler, is written nowhere: the handler of last resort takes warnings
    and above. *)
Lemma logger_info_quiet (line : json) (w : world) :
  isEnabledFor TRICOT INFO (logging w) = false ∨
  found_handlers (lineage TRICOT) (logging w) = [] →
  files (snd (logger_info TRICOT line w)) = files w ∧
  console (snd (logger_info TRICOT line w)) = console w.
Proof.
  intros H. unfold logger_info. cbn [record_emitted logging].
  destruct (isEnabledFor _ _ _) eqn:En; [|done].
  destruct H as [|H]; [done|]. cbn [snd]. unfold callHandlers.
  cbn [record_emitted logging]. rewrite H. by destruct (decide _).
Qed.

(** A channel that was never set up: its level is not set, and the root
    logger's level is above [INFO]. *)
Lemma not_enabled_by_default (L : logging_module) :
  level (tricot_logger L) = NOTSET → INFO < level (root_logger L) →
  isEnabledFor TRICOT INFO L = false.
Proof.
  intros Ht Hr. unfold isEnabledFor. simpl.
  destruct (disabled _); [done|]. destruct (decide _); [done|].
  apply bool_decide_eq_false. rewrite Ht. simpl.
  destruct (decide (level (root_logger L) = 0)) as [E|]; [|lia].
  rewrite E in Hr. unfold INFO in Hr. lia.
Qed.

Lemma found_drained (L : logging_module) :
  hasHandlers TRICOT (drained L) = false →
  found_handlers (lineage TRICOT) (drained L) = [].
Proof.
  rewrite hasHandlers_drained. intros H. simpl.
  destruct (propagate (tricot_logger L)); [|done]. simpl in *.
  apply bool_decide_eq_false in H.
  destruct (handlers (root_logger L)); [|by destruct H].
  by destruct (propagate (root_logger L)).
Qed.

Lemma found_drained_root (L : logging_module) :
  propagate (tricot_logger L) = true →
  found_handlers (lineage TRICOT) (drained L) = handlers (root_logger L).
Proof.
  intros H. simpl. rewrite H.
  destruct (propagate (root_logger L)); by rewrite app_nil_r.
Qed.

Lemma enabled_after_attach (L : logging_module) (h : handler) :
  disabled (tricot_logger L) = false → manager_disable L < INFO →
  isEnabledFor TRICOT INFO (addHandler TRICOT h (drained L)) = true.
Proof.
  intros Hd Hm. rewrite attach_drained. unfold isEnabledFor. simpl.
  rewrite Hd. rewrite decide_False by lia. done.
Qed.

Section Runs.
Variable recursion_limit : nat.
Variable original_chat_completion_create : completion.
Local Abbreviation create_and_log :=
  (create_and_log recursion_limit original_chat_completion_create).
Local Abbreviation edited := (edited recursion_limit).
Local Abbreviation log_line := (log_line recursion_limit).
Local Abbreviation outcome :=
  (outcome recursion_limit original_chat_completion_create).
Local Abbreviation calls :=
  (calls recursion_limit original_chat_completion_create).

(** A call of the wrapper works on the interpreter state, and on nothing
    else until the call of [logger.info] that ends it. *)
Lemma wrapper_run messages edit_call kwargs w r w' :
  create_and_log messages edit_call kwargs w = (r, w') →
  (∃ e, r = Raise e ∧ w' = set_py (py w') w) ∨
  (∃ response line w3,
     r = Ok response ∧ w3 = set_py (py w3) w ∧
     w' = snd (logger_info TRICOT line w3)).
Proof.
  intros H. apply create_and_log_outcome in H.
  destruct H as [e w1 He|m' w1 e i2 He Ho|m' w1 resp i2 e w3 He Ho Hl
                |m' w1 resp i2 line w3 He Ho Hl];
    apply py_only_edited in He;
    try (apply py_only_log_line in Hl).
  - left. by exists e.
  - left. exists e. by rewrite He.
  - left. exists e. split; [done|]. by rewrite Hl, He.
  - right. exists resp, line, w3. split_and!; [done| |done].
    by rewrite Hl, He.
Qed.

Lemma wrapper_configuration messages edit_call kwargs w r w' :
  create_and_log messages edit_call kwargs w = (r, w') →
  same_configuration w w'.
Proof.
  intros [(e & _ & ->)|(resp & line & w3 & _ & H3 & ->)]%wrapper_run;
    [done|].
  eapply same_configuration_trans; [|apply logger_info_configuration].
  by rewrite H3.
Qed.


(** X2. On a channel that was never set up (its level is not set and the
    root logger's level is above [INFO], as when [new_log_file] was not
    called), a call of the wrapper that returns has handed its line to the
    channel, and the line is written to no file and not to the console. *)
Theorem unconfigured_channel_writes_nothing
    (messages : val) (edit_call : option hook) (kwargs : keywords)
    (w w' : world) (r : result val) :
  level (tricot_logger (logging w)) = NOTSET →
  INFO < level (root_logger (logging w)) →
  create_and_log messages edit_call kwargs w = (r, w') →
  files w' = files w ∧ console w' = console w ∧
  ∀ response, r = Ok response → ∃ line, emitted w' = emitted w ++ [line].
Proof.
  intros Ht Hr H.
  apply wrapper_run in H as [(e & -> & ->)|(resp & line & w3 & -> & H3 & ->)];
    [done|].
  assert (logging w3 = logging w ∧ files w3 = files w ∧
          console w3 = console w ∧ emitted w3 = emitted w)
    as (Hl & Hf & Hc & He) by (by rewrite H3).
  destruct (logger_info_quiet line w3) as [-> ->].
  { left. rewrite Hl. by apply not_enabled_by_default. }
  split_and!; [done|done|]. intros ? _. exists line.
  by rewrite logger_info_emitted, He.
Qed.

(** What a run of calls leaves in the file of the one handler of an enabled
    channel. *)
Lemma calls_lines (w1 w2 : world) (n : nat) (h : handler) (p : string)
    (old : list json) :
  found_handlers (lineage TRICOT) (logging w1) = [h] →
  baseFilename h = Some p → hlevel h ≤ INFO →
  isEnabledFor TRICOT INFO (logging w1) = true →
  files w1 !! p = Some old →
  calls w1 w2 n →
  logging w2 = logging w1 ∧
  ∃ lines,
    length lines = n ∧
    emitted w2 = emitted w1 ++ lines ∧
    files w2 !! p = Some (old ++ lines) ∧
    (∀ q, q ≠ p → files w2 !! q = files w1 !! q) ∧
    console w2 = console w1.
Proof.
  intros Hf Hp Hlv Hen Hold. induction 1 as
    [w|w wa n m ec kw resp wb Hc IH Hrun|w wa n m ec kw e wb Hc IH Hrun].
  - split; [done|]. exists []. rewrite !app_nil_r. by split_and!.
  - destruct (IH Hf Hen Hold) as (HL & lines & Hn & Hem & Hfile & Hoth & Hco).
    split; [by rewrite (proj1 (wrapper_configuration _ _ _ _ _ _ Hrun))|].
    apply wrapper_run in Hrun
      as [(e & ? & _)|(resp' & line & w3 & _ & H3 & ->)]; [done|].
    assert (logging w3 = logging wa ∧ files w3 = files wa ∧
            console w3 = console wa ∧ emitted w3 = emitted wa)
      as (Hl3 & Hf3 & Hc3 & He3) by (by rewrite H3).
    rewrite <- HL, <- Hl3 in Hf, Hen.
    destruct (logger_info_single w3 h p line Hf Hp) as (Ho & Hcon & Hthis).
    exists (lines ++ [line]). rewrite length_app, logger_info_emitted. simpl.
    split_and!.
    + lia.
    + by rewrite He3, Hem, app_assoc.
    + rewrite Hthis, Hf3, Hfile by done. simpl. by rewrite app_assoc.
    + intros q Hq. by rewrite Ho, Hf3, Hoth.
    + by rewrite Hcon, Hc3.
  - destruct (IH Hf Hen Hold) as (HL & lines & Hn & Hem & Hfile & Hoth & Hco).
    split; [by rewrite (proj1 (wrapper_configuration _ _ _ _ _ _ Hrun))|].
    apply wrapper_run in Hrun
      as [(e' & _ & ->)|(resp' & line & w3 & ? & _)]; [|done].
    by exists lines.
Qed.
End Runs.

(** ** The log file over a run *)

Lemma hasHandlers_drained_sight (L : logging_module) :
  hasHandlers TRICOT (drained L) = true ↔ root_in_sight L.
Proof.
  rewrite hasHandlers_drained. unfold root_in_sight.
  destruct (propagate _); simpl.
  - rewrite bool_decide_eq_true. split; [done|by intros [_ ?]].
  - split; [done|by intros [? _]].
Qed.

Section LogFile.
Variable recursion_limit : nat.
Variable original_chat_completion_create : completion.
Variable strftime : Z → string.
Local Abbreviation create_and_log :=
  (create_and_log recursion_limit original_chat_completion_create).
Local Abbreviation calls :=
  (calls recursion_limit original_chat_completion_create).
Local Abbreviation new_log_file := (new_log_file strftime).
Local Abbreviation log_path := (log_path strftime).

Lemma calls_configuration (w1 w2 : world) (n : nat) :
  calls w1 w2 n → same_configuration w1 w2.
Proof.
  induction 1 as [w|w wa n m ec kw resp wb Hc IH Hrun
                 |w wa n m ec kw e wb Hc IH Hrun]; [done| |];
    (eapply same_configuration_trans; [exact IH|]);
    by eapply wrapper_configuration.
Qed.

(** X3. The log file that a call of [new_log_file] opened holds, after the
    lines it had before, one line for each call of the wrapper that has
    returned since, in the order of the calls and whatever hooks they ran
    with; the calls that raised left none. No other file and not the
    console is written, and the handler stays the channel's only one. The
    channel must not have been disabled. *)
Theorem log_holds_returned_calls
    (path : option string) (w w1 w2 : world) (n : nat) :
  new_log_file path w = (Ok tt, w1) →
  disabled (tricot_logger (logging w)) = false →
  manager_disable (logging w) < INFO →
  calls w1 w2 n →
  ∃ lines,
    length lines = n ∧
    emitted w2 = emitted w ++ lines ∧
    files w2 !! log_path path w
      = Some (default [] (files w !! log_path path w) ++ lines) ∧
    (∀ q, q ≠ log_path path w → files w2 !! q = files w !! q) ∧
    console w2 = console w ∧
    handlers (tricot_logger (logging w2))
      = [Handler (handler_count w) NOTSET (Some (log_path path w))].
Proof.
  intros Hopen Hd Hm Hcalls.
  destruct (new_log_file_ok strftime _ _ _ Hopen)
    as (HL & _ & Hh & Hf & _ & _ & _ & Hoth & Hfile & Hco & Hem & _).
  assert (isEnabledFor TRICOT INFO (logging w1) = true) as Hen
    by (rewrite HL; by apply enabled_after_attach).
  destruct (calls_lines _ _ _ _ _ _ _ _ Hf eq_refl ltac:(done) Hen Hfile Hcalls)
    as (HL2 & lines & Hn & Hem2 & Hfile2 & Hoth2 & Hco2).
  exists lines. split_and!; try done.
  - by rewrite Hem2, Hem.
  - intros q Hq. by rewrite Hoth2, Hoth.
  - by rewrite Hco2.
  - by rewrite HL2.
Qed.


(** X5. When the channel propagates to a root logger that has a handler,
    [new_log_file] raises [IndexError] after it has set the level and taken
    every handler off the channel: no file is opened, and the records of
    later calls of the wrapper find the root logger's handlers only, so that
    a file none of them writes to, the log file of an earlier
    [new_log_file] among them, gets no further line. *)
Theorem index_error_strips_channel (path : option string) (w : world) :
  root_in_sight (logging w) →
  ∃ w',
    new_log_file path w = (Raise IndexError, w') ∧
    handlers (tricot_logger (logging w')) = [] ∧
    level (tricot_logger (logging w')) = INFO ∧
    found_handlers (lineage TRICOT) (logging w')
      = handlers (root_logger (logging w)) ∧
    files w' = files w ∧
    streams w' = streams w ∧
    handler_count w' = handler_count w ∧
    ∀ messages edit_call kwargs r w2 q,
      create_and_log messages edit_call kwargs w' = (r, w2) →
      (∀ h, h ∈ handlers (root_logger (logging w)) →
            baseFilename h ≠ Some q) →
      files w2 !! q = files w !! q.
Proof.
  intros Hs. pose proof Hs as [Hp Hr].
  rewrite new_log_file_unfold.
  rewrite (proj2 (hasHandlers_drained_sight _) Hs).
  eexists. split; [done|].
  change (logging (drained_world w)) with (drained (logging w)).
  split_and!; try done.
  - by apply found_drained_root.
  - intros m ec kw r w2 q Hrun Hq.
    apply wrapper_run in Hrun
      as [(e & _ & ->)|(resp & line & w3 & _ & H3 & ->)]; [done|].
    rewrite logger_info_other_file; rewrite H3; [done|].
    change (logging (set_py (py w3) (drained_world w)))
      with (drained (logging w)).
    by rewrite found_drained_root.
Qed.

(** X6. After [new_log_file] failed to open its file, the calls of the
    wrapper go on as before, and the line of a call that returns is handed
    to the channel and written nowhere: the channel has no handler left, and
    the handler of last resort does not take [INFO] records. *)
Theorem failed_open_loses_records
    (path : option string) (w w1 w2 : world)
    (messages : val) (edit_call : option hook) (kwargs : keywords)
    (r : result val) :
  new_log_file path w = (Raise OSError, w1) →
  create_and_log messages edit_call kwargs w1 = (r, w2) →
  files w2 = files w ∧ console w2 = console w ∧
  ∀ response, r = Ok response → ∃ line, emitted w2 = emitted w ++ [line].
Proof.
  rewrite new_log_file_run.
  destruct (hasHandlers TRICOT (drained (logging w))) eqn:Hh; [done|].
  destruct (has_nul _); [done|].
  destruct (decide _) as [Hu|Hu]; [|done]. intros [= <-] Hrun.
  apply wrapper_run in Hrun
    as [(e & -> & ->)|(resp & line & w3 & -> & H3 & ->)]; [done|].
  destruct (logger_info_quiet line w3) as [-> ->].
  { right. rewrite H3.
    change (logging (set_py (py w3) (drained_world w)))
      with (drained (logging w)).
    by apply found_drained. }
  rewrite logger_info_emitted, H3.
  split_and!; [done|done|]. intros ? _. by exists line.
Qed.

(** X7. [new_log_file] can be called again after a run of calls of the
    wrapper: when the first call returned, the next one returns whenever its
    file can be opened (its absolute path holds no NUL character and the
    operating system does not refuse it), and its handler replaces the
    first. *)
Theorem new_log_file_again
    (path1 path2 : option string) (w w1 w2 : world) (n : nat) :
  new_log_file path1 w = (Ok tt, w1) →
  calls w1 w2 n →
  has_nul (log_path path2 w2) = false →
  log_path path2 w2 ∉ unwritable w →
  ∃ w3,
    new_log_file path2 w2 = (Ok tt, w3) ∧
    handlers (tricot_logger (logging w3))
      = [Handler (S (handler_count w)) NOTSET (Some (log_path path2 w2))].
Proof.
  intros H1 Hc Hnul Hp.
  destruct (new_log_file_ok strftime _ _ _ H1)
    as (HL & Hh & _ & _ & _ & _ & Hn & _ & _ & _ & _ & _ & _ & _ & _ & Hr & _).
  destruct (calls_configuration _ _ _ Hc) as (HL2 & Hu2 & _ & Hn2).
  rewrite new_log_file_run.
  assert (hasHandlers TRICOT (drained (logging w2)) = false) as ->.
  { rewrite hasHandlers_drained, HL2, HL, attach_drained. simpl.
    by rewrite hasHandlers_drained in Hh. }
  rewrite Hnul.
  assert (log_path path2 w2 ∉ refused w2) as Hnr.
  { intros Hin. apply Hp. apply elem_of_unwritable. split; [done|].
    assert (log_path path2 w2 ∈ unwritable w2) as Hin2
      by (by apply elem_of_unwritable).
    rewrite Hu2 in Hin2. apply elem_of_unwritable in Hin2 as [_ Hin2].
    by rewrite Hr in Hin2. }
  rewrite decide_False by done.
  eexists. split; [done|]. cbn. by rewrite Hn2, Hn.
Qed.

(** X16. A path with a NUL character: when the loop has passed, the call
    raises the [ValueError] of [open], and like a call whose file the
    operating system refuses it has created and attached no handler and
    leaves the channel without any. *)
Theorem new_log_file_nul_path (path : option string) (w : world) :
  ¬ root_in_sight (logging w) →
  has_nul (log_path path w) = true →
  ∃ w', new_log_file path w = (Raise ValueError, w') ∧
        handlers (tricot_logger (logging w')) = [] ∧
        found_handlers (lineage TRICOT) (logging w') = [] ∧
        handler_count w' = handler_count w ∧
        streams w' = streams w ∧
        files w' = files w.
Proof.
  intros Hs Hnul. rewrite new_log_file_run.
  destruct (hasHandlers TRICOT (drained (logging w))) eqn:Hh.
  { by apply hasHandlers_drained_sight in Hh. }
  rewrite Hnul. eexists. split; [done|].
  change (logging (drained_world w)) with (drained (logging w)).
  split_and!; try done. by apply found_drained.
Qed.
End LogFile.

(** ** Calls that fail when the completion call has returned *)

Lemma encode_items_elem (enc : val → result json) (xs : list val)
    (js : list json) (x : val) :
  encode_items enc xs = Ok js → x ∈ xs → ∃ j, enc x = Ok j.
Proof.
  revert js. induction xs as [|y xs IH]; intros js; simpl.
  - by intros _ ?%elem_of_nil.
  - destruct (enc y) as [j|] eqn:Ey; [|done].
    destruct (encode_items enc xs) as [js0|]; [|done].
    intros _ [->|Hx]%elem_of_cons; [by exists j|]. by eapply IH.
Qed.

(** A list that holds bytes, or itself, has no serialization. *)
Lemma encode_unserializable (d : nat) (h : list obj) (markers : list addr)
    (a : addr) (xs : list val) :
  h !! a = Some (OList xs) →
  (∃ bs, VBytes bs ∈ xs) ∨ VRef a ∈ xs →
  ∀ j, encode d h markers (VRef a) ≠ Ok j.
Proof.
  intros Ha Hx j. destruct d as [|d]; [done|]. simpl.
  destruct (decide _); [done|]. rewrite Ha. simpl.
  destruct (encode_items _ xs) as [js|] eqn:E; [|done]. intros _.
  destruct Hx as [[bs Hx]|Hx];
    destruct (encode_items_elem _ _ _ _ E Hx) as [j' Hj'];
    destruct d as [|d]; try done.
  simpl in Hj'. by rewrite decide_True in Hj' by left.
Qed.

Section Failures.
Variable recursion_limit : nat.
Variable original_chat_completion_create : completion.
Local Abbreviation create_and_log :=
  (create_and_log recursion_limit original_chat_completion_create).
Local Abbreviation edited := (edited recursion_limit).
Local Abbreviation log_line := (log_line recursion_limit).
Local Abbreviation outcome :=
  (outcome recursion_limit original_chat_completion_create).

(** X9. Without a hook the wrapper passes on the caller's own list, not a
    copy, and returns what the completion call returned for it; the reply
    is added to a new list and not to the caller's: if the completion call
    changes no existing object, every object that existed when the wrapper
    was called is unchanged when it returns or raises. *)
Theorem no_hook_keeps_store
    (messages : val) (kwargs : keywords) (w w' : world) (r : result val) :
  completion_frame original_chat_completion_create →
  create_and_log messages None kwargs w = (r, w') →
  preserved (heap (py w)) (heap (py w')) ∧
  ∀ response, r = Ok response →
    ∃ i2, original_chat_completion_create messages kwargs (py w)
            = (Ok response, i2) ∧
          preserved (heap i2) (heap (py w')).
Proof.
  intros Hc H. apply create_and_log_outcome in H. split.
  - eapply outcome_preserves; [done| |done].
    intros r1 w1 [= _ <-]. apply preserved_refl.
  - intros response ->.
    inversion H as [| | |forwarded w1 resp i2 line w3 He Ho Hl]; subst.
    injection He as <- <-. exists i2. split; [done|].
    rewrite logger_info_py. by apply grows_log_line in Hl.
Qed.

(** X10. Messages that hold a bytes value, or a list that holds itself,
    cannot be logged: if the completion call changes no existing object, a
    call of the wrapper without a hook on such a list never returns. It
    raises, also when the completion call returned a response, which is
    then lost, and nothing is logged or written. *)
Theorem unserializable_messages_lose_response
    (a : addr) (xs : list val) (kwargs : keywords) (w w' : world)
    (r : result val) :
  completion_frame original_chat_completion_create →
  heap (py w) !! a = Some (OList xs) →
  (∃ bs, VBytes bs ∈ xs) ∨ VRef a ∈ xs →
  create_and_log (VRef a) None kwargs w = (r, w') →
  ∃ e, r = Raise e ∧
       emitted w' = emitted w ∧ files w' = files w ∧ console w' = console w.
Proof.
  intros Hc Ha Hx H.
  destruct r as [response|e].
  2:{ exists e. apply wrapper_run in H as [(e' & _ & ->)|(? & ? & ? & ? & _)];
        done. }
  exfalso. apply create_and_log_outcome in H.
  inversion H as [| | |forwarded w1 resp i2 line w3 He Ho Hl]; subst.
  injection He as <- <-.
  pose proof (Hc _ _ _ _ _ Ho _ _ Ha) as Ha2.
  apply log_line_inv in Hl as (items & message & kvs & Hu & _ & _ & Hh & Hj & _).
  cbn [set_py py heap] in Hu, Hh, Hj. cbn [unpack] in Hu.
  rewrite Ha2 in Hu. injection Hu as <-.
  set (n := length (heap i2)) in *.
  assert (heap (py w3) !! S n = Some (OList (xs ++ [VRef n]))) as Ht.
  { rewrite Hh. rewrite lookup_app_r by (unfold n; lia).
    by replace (S n - length (heap i2))%nat with 1%nat by (unfold n; lia). }
  assert (heap (py w3) !! S (S n) =
          Some (ODict [("timestamp", VFloat (clock (py w)));
                       ("messages", VRef (S n))])) as Hr.
  { rewrite Hh. rewrite lookup_app_r by (unfold n; lia).
    by replace (S (S n) - length (heap i2))%nat with 2%nat by (unfold n; lia). }
  destruct (record_json recursion_limit _ _ _ n (S n) (S (S n)) line
              ltac:(lia) Hr Ht Hj) as (d & js & jm & _ & Hjs & _).
  assert (heap (py w3) !! a = Some (OList xs)) as Ha3.
  { rewrite Hh. by apply lookup_app_l_Some. }
  destruct Hx as [[bs Hx]|Hx];
    destruct (encode_items_elem _ _ _ _ Hjs Hx) as [j Hj']; [done|].
  by eapply encode_unserializable in Hj'; [|exact Ha3|right].
Qed.

(** X11. Messages that cannot be iterated ([None], a number: what a hook
    returns that edits in place and returns nothing) are passed on to the
    completion call all the same; the wrapper raises [TypeError] when that
    call has returned, and logs nothing. *)
Theorem non_iterable_messages_fail_late
    (messages : val) (edit_call : option hook) (kwargs : keywords)
    (w w1 : world) (forwarded response : val) (i2 : interp) :
  edited edit_call messages w = (Ok forwarded, w1) →
  scalar forwarded →
  original_chat_completion_create forwarded kwargs (py w1)
    = (Ok response, i2) →
  create_and_log messages edit_call kwargs w
    = (Raise TypeError, set_py i2 w1) ∧
  emitted (set_py i2 w1) = emitted w.
Proof.
  intros He Hs Ho. split.
  - apply create_and_log_outcome. eapply record_failed; [done|done|].
    unfold log_line, trace, bind, read_heap. cbn [set_py py heap].
    by destruct forwarded.
  - apply py_only_edited in He. by rewrite He.
Qed.

Lemma malformed_top_message (h : list obj) (response : val) (e : exn) :
  malformed h response e →
  result_bind (getitem_str h response "choices") (λ choices,
  result_bind (getitem_int h choices 0) (λ choice,
  getitem_str h choice "message")) = Raise e.
Proof.
  intros [Hs|a kvs -> Ha Hk|choices Hc Hs|choices a Hc -> Ha
         |choices choice a kvs Hc Hi -> Ha Hk].
  - by destruct response.
  - simpl. by rewrite Ha, Hk.
  - rewrite Hc. simpl. by destruct choices.
  - rewrite Hc. simpl. by rewrite Ha.
  - rewrite Hc. simpl. rewrite Hi. simpl. by rewrite Ha, Hk.
Qed.

(** X12. A response that is not what the wrapper expects (not
    subscriptable, without the key ["choices"], with choices that are not a
    sequence or are empty, with a first choice without the key
    ["message"]) makes the wrapper raise the exception of the failing
    subscript ([TypeError], [KeyError], [IndexError]) when the completion
    call has returned: the response is lost and nothing is logged. *)
Theorem malformed_response_fails
    (messages : val) (edit_call : option hook) (kwargs : keywords)
    (w w1 : world) (forwarded response : val) (i2 : interp)
    (items : list val) (e : exn) :
  edited edit_call messages w = (Ok forwarded, w1) →
  original_chat_completion_create forwarded kwargs (py w1)
    = (Ok response, i2) →
  unpack (heap i2) forwarded = Ok items →
  malformed (heap i2) response e →
  create_and_log messages edit_call kwargs w = (Raise e, set_py i2 w1) ∧
  emitted (set_py i2 w1) = emitted w.
Proof.
  intros He Ho Hu Hm. split.
  - apply create_and_log_outcome. eapply record_failed; [done|done|].
    apply malformed_top_message in Hm.
    unfold log_line. apply bind_raise. unfold trace.
    rewrite (bind_ok _ _ _ (set_py i2 w1) items)
      by (unfold read_heap; cbn [set_py py heap]; by rewrite Hu).
    apply bind_raise.
    destruct (top_message response (set_py i2 w1)) as [rm wm] eqn:Et.
    apply top_message_inv in Et as [-> ->]. cbn [set_py py heap].
    by rewrite Hm.
  - apply py_only_edited in He. by rewrite He.
Qed.
End Failures.

(** ** The installer *)

Lemma split_dot_major (s : string) :
  ∃ major pieces, split_dot s = major :: pieces ∧
    (major = "" ↔ s = "" ∨ ∃ rest, s = String "."%char rest).
Proof.
  induction s as [|c s (major & pieces & IH & _)]; simpl.
  - exists "", []. split; [done|]. split; [by left|done].
  - destruct (decide (c = "."%char)) as [->|Hc].
    + exists "", (major :: pieces). rewrite IH. split; [done|].
      split; [|done]. intros _. right. by exists s.
    + rewrite IH. exists (String c major), pieces. split; [done|].
      split; [done|]. intros [|[rest [=]]]; done.
Qed.

Section Installs.
Variable recursion_limit : nat.
Variable OPENAI_IS_PRE_1_0_0 : bool.
Variable original_chat_completion_create : completion.
Local Abbreviation patch_openai := (patch_openai OPENAI_IS_PRE_1_0_0).
Local Abbreviation chat_completion :=
  (chat_completion recursion_limit OPENAI_IS_PRE_1_0_0
     original_chat_completion_create).

Lemma patch_openai_sequence (hooks : list (option hook)) (last : option hook)
    (openai : openai_module) :
  foldl (λ m edit_call, patch_openai edit_call m) openai (hooks ++ [last])
    = patch_openai last openai.
Proof.
  revert openai. induction hooks as [|e hooks IH]; intros openai; [done|].
  simpl. rewrite IH. unfold patch_openai. by destruct OPENAI_IS_PRE_1_0_0.
Qed.

(** X13. However often [patch_openai] is called, a call through the
    patched attribute is one call of [create_and_log] with the hook of the
    last call of [patch_openai], or with the [edit_call] the call gives
    itself, and with the keywords of the call less [edit_call]: no earlier
    hook is run and no wrapper is wrapped. The attribute of the other
    library version is left as it was. *)
Theorem patch_openai_any_number
    (hooks : list (option hook)) (last : option hook)
    (openai : openai_module) :
  (∀ messages kwargs,
     assoc "messages" kwargs = None →
     chat_completion
         (foldl (λ m edit_call, patch_openai edit_call m) openai
                (hooks ++ [last]))
         messages kwargs
       = create_and_log recursion_limit original_chat_completion_create
           messages (hook_in_force last kwargs)
           (without_key "edit_call" kwargs)) ∧
  (if OPENAI_IS_PRE_1_0_0
   then chat_completions_create
          (foldl (λ m edit_call, patch_openai edit_call m) openai
                 (hooks ++ [last]))
        = chat_completions_create openai
   else ChatCompletion_create
          (foldl (λ m edit_call, patch_openai edit_call m) openai
                 (hooks ++ [last]))
        = ChatCompletion_create openai).
Proof.
  rewrite patch_openai_sequence. split.
  - intros messages kwargs Hm. by apply patched_call.
  - unfold patch_openai. by destruct OPENAI_IS_PRE_1_0_0.
Qed.
End Installs.

(** X14. The version test of line 47 never fails, and it takes the library
    for a version before 1.0.0 exactly when the version string is ["0"] or
    starts with ["0."]. *)
Theorem version_test (version : string) :
  ∃ pre, openai_is_pre_1_0_0 version = Ok pre ∧
    (pre = true ↔ version = "0" ∨ ∃ rest, version = "0." +:+ rest).
Proof.
  unfold openai_is_pre_1_0_0. destruct version as [|c s]; cbn [split_dot].
  - eexists. split; [done|]. rewrite bool_decide_eq_true.
    split; [done|]. intros [|[rest ?]]; done.
  - destruct (split_dot_major s) as (major & pieces & Hs & Hm).
    destruct (decide (c = "."%char)) as [->|Hc].
    + eexists. split; [done|]. rewrite bool_decide_eq_true.
      split; [done|]. intros [|[rest ?]]; done.
    + rewrite Hs. eexists. split; [done|]. rewrite bool_decide_eq_true. split.
      * intros [= -> ->]. destruct Hm as [Hm _].
        destruct (Hm eq_refl) as [->|[rest ->]]; [by left|right; by exists rest].
      * intros [[= -> ->]|[rest [= -> ->]]]; f_equal.
        -- destruct Hm as [_ Hm]. rewrite Hm; [done|by left].
        -- destruct Hm as [_ Hm]. rewrite Hm; [done|]. right. by exists rest.
Qed.

(** ** The format of a line *)

Section Format.
Variable recursion_limit : nat.
Variable original_chat_completion_create : completion.
Local Abbreviation create_and_log :=
  (create_and_log recursion_limit original_chat_completion_create).
Local Abbreviation edited := (edited recursion_limit).
Local Abbreviation log_line := (log_line recursion_limit).

(** X15. The line of a call that returns is a JSON object with exactly two
    fields, ["timestamp"] and then ["messages"]: the keyword arguments of
    the call and the rest of the response are not in it. The timestamp is
    a float, and the messages are an array with one element for each item
    of the list that was sent on and one more for the reply. *)
Theorem logged_line_format
    (messages : val) (edit_call : option hook) (kwargs : keywords)
    (w w' : world) (r : val) :
  create_and_log messages edit_call kwargs w = (Ok r, w') →
  ∃ (forwarded : val) (w1 : world) (i2 : interp) (items : list val)
    (js : list json) (jm : json),
    edited edit_call messages w = (Ok forwarded, w1) ∧
    original_chat_completion_create forwarded kwargs (py w1) = (Ok r, i2) ∧
    unpack (heap i2) forwarded = Ok items ∧
    length js = length items ∧
    emitted w' =
      emitted w ++
      [JObj [("timestamp", JFloat (clock (py w1)));
             ("messages", JArr (js ++ [jm]))]].
Proof.
  intros H. apply create_and_log_outcome in H.
  inversion H as [| | |forwarded w1 resp i2 line w3 He Ho Hl]; subst.
  pose proof (py_only_edited _ _ _ _ _ _ He) as Hw1.
  pose proof (py_only_log_line _ _ _ _ _ _ _ Hl) as Hw3.
  apply log_line_inv in Hl as (items & message & kvs & Hu & _ & _ & Hh & Hj & _).
  cbn [set_py py heap] in Hu, Hh, Hj.
  set (n := length (heap i2)) in *.
  assert (heap (py w3) !! S n = Some (OList (items ++ [VRef n]))) as Ht.
  { rewrite Hh. rewrite lookup_app_r by (unfold n; lia).
    by replace (S n - length (heap i2))%nat with 1%nat by (unfold n; lia). }
  assert (heap (py w3) !! S (S n) =
          Some (ODict [("timestamp", VFloat (clock (py w1)));
                       ("messages", VRef (S n))])) as Hr.
  { rewrite Hh. rewrite lookup_app_r by (unfold n; lia).
    by replace (S (S n) - length (heap i2))%nat with 2%nat by (unfold n; lia). }
  destruct (record_json recursion_limit _ _ _ n (S n) (S (S n)) line
              ltac:(lia) Hr Ht Hj) as (d & js & jm & _ & Hjs & _ & ->).
  exists forwarded, w1, i2, items, js, jm.
  rewrite logger_info_emitted. split_and!; try done.
  - by apply encode_items_length in Hjs.
  - by rewrite Hw3, Hw1.
Qed.
End Format.

(** ** The properties on the concrete run *)

Import Scenario.

(** No hook: the logged messages are the caller's message and the reply. *)
Example logged_without_hook :
  files (snd (create_and_log limit hello messages None [] opened))
    !! "/srv/app/logs/a.log"
  = Some [JObj [("timestamp", JFloat 1000);
                ("messages",
                 JArr [JObj [("role", JStr "user"); ("content", JStr "hi")];
                       JObj [("role", JStr "assistant");
                             ("content", JStr "hello")]])]].
Proof. vm_compute. reflexivity. Qed.

(** Two calls in a row: two lines in the file, in the order of the calls. *)
Example two_calls_two_lines :
  (λ lines : list json, json_field "timestamp" <$> lines) <$>
    (files (snd (create_and_log limit hello messages None []
                   (snd (create_and_log limit hello messages None []
                           opened))))
       !! "/srv/app/logs/a.log")
  = Some [Some (JFloat 1000); Some (JFloat 1007)].
Proof. vm_compute. reflexivity. Qed.

(** A completion call that fails: the caller gets its exception and the file
    gets no line. *)
Example failed_call_not_logged :
  fst (create_and_log limit unreachable messages None [] opened)
    = Raise (Exception "APIConnectionError") ∧
  files (snd (create_and_log limit unreachable messages None [] opened))
    !! "/srv/app/logs/a.log" = Some [].
Proof. vm_compute. done. Qed.

(** A list that holds itself, and twice the same dict: the copy holds itself
    and twice the same new dict; the list cannot be serialized. *)
Example deepcopy_keeps_shape :
  deepcopy limit (VRef 1) [ODict [("k", VInt 1)]; OList [VRef 0; VRef 1; VRef 0]]
    = Ok (VRef 2,
          [ODict [("k", VInt 1)]; OList [VRef 0; VRef 1; VRef 0];
           OList [VRef 3; VRef 2; VRef 3]; ODict [("k", VInt 1)]]) ∧
  json_dumps limit [ODict [("k", VInt 1)]; OList [VRef 0; VRef 1; VRef 0]]
    (VRef 1) = Raise ValueError.
Proof. vm_compute. done. Qed.

(** The caller's list of one dict of strings is nested two deep: it is
    copied with six levels of the call stack left and not with five; three
    lists in one another, the innermost empty, take seven. *)
Example deepcopy_frames :
  deepcopy 6 messages store
    = Ok (VRef 2,
          store ++
          [OList [VRef 3];
           ODict [("role", VStr "user"); ("content", VStr "hi")]]) ∧
  deepcopy 5 messages store = Raise RecursionError ∧
  deepcopy 7 (VRef 2) [OList []; OList [VRef 0]; OList [VRef 1]]
    = Ok (VRef 3,
          [OList []; OList [VRef 0]; OList [VRef 1];
           OList [VRef 4]; OList [VRef 5]; OList []]) ∧
  deepcopy 6 (VRef 2) [OList []; OList [VRef 0]; OList [VRef 1]]
    = Raise RecursionError.
Proof. vm_compute. done. Qed.

(** Two installs in a row, of a hook that appends a system message and then
    of a hook that empties the list: the logged trace is the reply alone. *)
Example second_hook_only :
  emitted
    (snd (chat_completion limit true hello
            (patch_openai true (Some forget)
               (patch_openai true (Some add_system)
                  (Openai library_create library_create)))
            messages [] opened))
  = [JObj [("timestamp", JFloat 1000);
           ("messages",
            JArr [JObj [("role", JStr "assistant");
                        ("content", JStr "hello")]])]].
Proof. vm_compute. reflexivity. Qed.

Lemma store_closed : heap_closed store.
Proof.
  intros [|[|a]] o; simpl; intros [= <-]; repeat constructor.
Qed.

Lemma hello_frame : completion_frame hello.
Proof. intros m kw i r i' [= _ <-]. apply preserved_app. Qed.

Lemma add_system_frame : hook_frame add_system.
Proof.
  intros x i r i'. unfold add_system.
  destruct x as [| | | | | |a]; try (by intros [= _ <-]).
  destruct (heap i !! a) as [[xs|kvs]|] eqn:Ea; try (by intros [= _ <-]).
  intros [= _ <-] a' o Ha' Hr. cbn [heap].
  rewrite list_lookup_insert_ne by (intros ->; apply Hr; constructor).
  by apply lookup_app_l_Some.
Qed.

(** C2 as it is written fails on a response without choices: the completion
    call succeeds, the wrapper raises, and nothing is logged. *)
Lemma completion_ok_without_record :
  ∃ response i2 w',
    no_choices messages [] (py opened) = (Ok response, i2) ∧
    create_and_log limit no_choices messages None [] opened
      = (Raise IndexError, w') ∧
    emitted w' = emitted opened ∧
    files w' !! "/srv/app/logs/a.log" = Some [].
Proof. vm_compute. by repeat eexists. Qed.

(** Without a hook: one line is handed to the channel and it is the one line
    of the log file. *)
Lemma exactly_one_record_witness :
  ∃ line,
    emitted (snd (create_and_log limit hello messages None [] opened))
      = emitted opened ++ [line] ∧
    files (snd (create_and_log limit hello messages None [] opened))
      !! "/srv/app/logs/a.log" = Some [line].
Proof.
  destruct (exactly_one_record limit hello messages None [] opened
              (snd (create_and_log limit hello messages None [] opened))
              (Ok (VRef 5)))
    as ((line & Hem & Hfile) & _); [vm_compute; reflexivity|].
  exists line. split; [exact Hem|].
  apply (Hfile (Handler 0 NOTSET (Some "/srv/app/logs/a.log"))
           "/srv/app/logs/a.log");
    vm_compute; congruence.
Defined.

(** With the appending hook and a response of two choices: the logged
    messages are the caller's message, the message the hook added, and the
    reply of the first choice. *)
Lemma trace_composition_witness :
  emitted (snd (create_and_log limit two_choices messages (Some add_system) []
                  opened))
  = [JObj [("timestamp", JFloat 1003);
           ("messages",
            JArr [JObj [("role", JStr "user"); ("content", JStr "hi")];
                  JObj [("role", JStr "system");
                        ("content", JStr "be brief")];
                  JObj [("role", JStr "assistant");
                        ("content", JStr "hello")]])]].
Proof.
  destruct (trace_composition limit two_choices messages (Some add_system) []
              opened
              (snd (create_and_log limit two_choices messages
                      (Some add_system) [] opened))
              (snd (edited limit (Some add_system) messages opened))
              (VRef 10) (VRef 2)
              (snd (two_choices (VRef 2) []
                      (py (snd (edited limit (Some add_system) messages
                                  opened)))))
              2%nat [VRef 3; VRef 4])
    as (_ & rd & cs & ch & rkvs & ckvs & rest & message & js & jm & d
        & _ & _ & _ & _ & _ & _ & Hem & _ & Hlim & _ & Hjs & Hjm & _);
    [vm_compute; reflexivity..|].
  vm_compute in Hlim. injection Hlim as <-.
  vm_compute in Hjs. injection Hjs as <-.
  vm_compute in Hjm. injection Hjm as <-.
  exact Hem.
Defined.

(** The hook appends to the list it is given; the caller's list still holds
    its one message when the call returns. *)
Lemma hook_gets_deep_copy_witness :
  (∃ copy h1,
     deepcopy limit messages store = Ok (copy, h1) ∧
     is_deep_copy store h1 messages copy) ∧
  preserved store
    (heap (py (snd (create_and_log limit hello messages (Some add_system) []
                      opened)))) ∧
  heap (py (snd (create_and_log limit hello messages (Some add_system) []
                   opened))) !! 1%nat = Some (OList [VRef 0]).
Proof.
  destruct (hook_gets_deep_copy limit hello add_system messages [] opened
              store_closed ltac:(vm_compute; lia) add_system_frame hello_frame)
    as (Hmade & Hcopy & Hkeep).
  split_and!.
  - destruct (Hmade 2%nat) as (copy & h1 & Hd);
      [reflexivity|vm_compute; lia|].
    exists copy, h1. split; [exact Hd|]. by apply Hcopy.
  - eapply Hkeep. apply surjective_pairing.
  - eapply Hkeep; [apply surjective_pairing|reflexivity].
Defined.

(** A response without choices: [IndexError], and nothing logged. *)
Lemma zero_choices_fail_witness :
  ∃ e,
    create_and_log limit no_choices messages None [] opened
      = (Raise e, set_py (snd (no_choices messages [] (py opened))) opened) ∧
    e = IndexError ∧
    emitted (set_py (snd (no_choices messages [] (py opened))) opened) = [].
Proof.
  destruct (zero_choices_fail limit no_choices messages None [] opened opened
              messages (VRef 3) (snd (no_choices messages [] (py opened))) 2%nat)
    as (e & Hrun & Hidx & Hem & _); try (vm_compute; reflexivity).
  exists e. split_and!; [exact Hrun| |exact Hem].
  apply (Hidx [VRef 0]). reflexivity.
Defined.

(** The hook takes three units of time and the completion call seven: the
    timestamp is the reading of the clock between the two. *)
Lemma timestamp_before_forwarding_witness :
  ∃ line,
    emitted (snd (create_and_log limit hello messages (Some add_system) []
                    opened)) = [line] ∧
    json_field "timestamp" line = Some (JFloat 1003).
Proof.
  destruct (timestamp_before_forwarding limit hello messages (Some add_system)
              [] opened
              (snd (create_and_log limit hello messages (Some add_system) []
                      opened))
              (VRef 8))
    as (forwarded & w1 & i2 & line & He & _ & _ & Hem & Hts & _);
    [vm_compute; reflexivity|].
  exists line. split; [exact Hem|].
  injection He as _ <-. exact Hts.
Defined.

(** C9 as it is written fails with a hook that takes time: the wrapper is
    entered at 1000, the hook takes three units, and the timestamp is
    1003. *)
Lemma timestamp_after_hook :
  clock (py opened) = 1000 ∧
  ∃ line,
    emitted (snd (create_and_log limit hello messages (Some add_system) []
                    opened)) = [line] ∧
    json_field "timestamp" line = Some (JFloat 1003).
Proof. split; [reflexivity|]. eexists. split; vm_compute; reflexivity. Qed.

(** Two installs in a row, of a hook that appends a system message and then
    of a hook that empties the list: a call runs the second hook on a copy
    of the messages, which it empties, the completion call gets the empty
    list, and the logged trace is the reply alone. *)
Lemma patch_openai_last_wins_witness :
  ∃ copy h1 forwarded w1 i2 response,
    deepcopy limit messages (heap (py opened)) = Ok (copy, h1) ∧
    forget copy (Interp h1 (clock (py opened))) = (Ok forwarded, py w1) ∧
    hello forwarded [] (py w1) = (Ok response, i2) ∧
    getitem_int (heap i2) forwarded 0 = Raise IndexError ∧
    emitted
      (snd (chat_completion limit true hello
              (patch_openai true (Some forget)
                 (patch_openai true (Some add_system)
                    (Openai library_create library_create)))
              messages [] opened))
    = [JObj [("timestamp", JFloat 1000);
             ("messages",
              JArr [JObj [("role", JStr "assistant");
                          ("content", JStr "hello")]])]].
Proof.
  destruct (patch_openai_last_wins limit true hello (Some add_system)
              (Some forget) (Openai library_create library_create)
              messages [] opened
              (snd (chat_completion limit true hello
                      (patch_openai true (Some forget)
                         (patch_openai true (Some add_system)
                            (Openai library_create library_create)))
                      messages [] opened))
              (Ok (VRef 7)))
    as (_ & _ & _ & Hret); [reflexivity|vm_compute; reflexivity|].
  destruct (Hret (VRef 7) eq_refl)
    as (forwarded & w1 & i2 & line & (copy & h1 & Hc & Hf) & Ho & Hem).
  exists copy, h1, forwarded, w1, i2, (VRef 7).
  split_and!; [exact Hc|exact Hf|exact Ho| |].
  - vm_compute in Hc. injection Hc as <- <-.
    rewrite (surjective_pairing (forget _ _)) in Hf.
    injection Hf as <- Hpy. rewrite <- Hpy in Ho.
    vm_compute in Ho. injection Ho as <-. reflexivity.
  - vm_compute. reflexivity.
Defined.

(** C5 as it is written fails on a call that gives an [edit_call] itself:
    after the same two installs, a call with [edit_call=None] runs no hook,
    not the second one, and the logged trace holds the caller's message;
    the keyword is not sent on to the completion call. *)
Lemma call_hook_replaces_installed :
  emitted
    (snd (chat_completion limit true hello
            (patch_openai true (Some forget)
               (patch_openai true (Some add_system)
                  (Openai library_create library_create)))
            messages [("edit_call", AVal VNone)] opened))
  = [JObj [("timestamp", JFloat 1000);
           ("messages",
            JArr [JObj [("role", JStr "user"); ("content", JStr "hi")];
                  JObj [("role", JStr "assistant");
                        ("content", JStr "hello")]])]] ∧
  chat_completion limit true hello
    (patch_openai true (Some forget)
       (patch_openai true (Some add_system)
          (Openai library_create library_create)))
    messages [("edit_call", AVal VNone)] opened
  = create_and_log limit hello messages None [] opened.
Proof. vm_compute. done. Qed.

(** Opening a path that cannot be opened, on a channel that has a handler:
    the call raises and the channel is left without one. *)
Lemma new_log_file_open_fails_witness :
  ∃ w', new_log_file strftime (Some "/proc/nowhere.log") opened
          = (Raise OSError, w') ∧
        handlers (tricot_logger (logging w')) = [] ∧
        handlers (tricot_logger (logging opened))
          = [Handler 0 NOTSET (Some "/srv/app/logs/a.log")].
Proof.
  destruct (new_log_file_open_fails strftime (Some "/proc/nowhere.log") opened)
    as (w' & Hrun & Hnone & _ & _).
  - reflexivity.
  - apply (bool_decide_unpack _). vm_compute. exact I.
  - exists w'. split_and!; [exact Hrun|exact Hnone|reflexivity].
Defined.

(** After [logging.basicConfig()] the first call of [new_log_file] raises
    [IndexError]. *)
Lemma new_log_file_index_error_witness :
  ∃ w', new_log_file strftime (Some "logs/a.log") with_root_handler
          = (Raise IndexError, w') ∧
        handlers (tricot_logger (logging w')) = [].
Proof.
  destruct (new_log_file_index_error strftime (Some "logs/a.log")
              with_root_handler)
    as (w' & Hrun & Hnone & _); [reflexivity|discriminate|reflexivity|].
  exists w'. split; [exact Hrun|exact Hnone].
Defined.

(** C10 as it is written fails on a channel that does not propagate: the
    root logger has a handler, the channel has none, and the call returns
    with the new handler attached. *)
Lemma no_index_error_without_propagation :
  handlers (tricot_logger (logging not_propagating)) = [] ∧
  handlers (root_logger (logging not_propagating)) = [Handler 0 NOTSET None] ∧
  fst (new_log_file strftime (Some "logs/a.log") not_propagating) = Ok tt ∧
  handlers (tricot_logger (logging
     (snd (new_log_file strftime (Some "logs/a.log") not_propagating))))
    = [Handler 1 NOTSET (Some "/srv/app/logs/a.log")].
Proof. vm_compute. done. Qed.

(** [new_log_file("logs/a.log")] and then [new_log_file("logs/b.log")]: the
    first handler is dropped and so closed, and a record logged afterwards
    is appended to the second file and leaves the first as it is. *)
Lemma new_log_file_single_destination_witness :
  ∃ w2,
    new_log_file strftime (Some "logs/b.log") opened = (Ok tt, w2) ∧
    handlers (tricot_logger (logging w2))
      = [Handler 1 NOTSET (Some "/srv/app/logs/b.log")] ∧
    is_closed (Handler 0 NOTSET (Some "/srv/app/logs/a.log")) w2 ∧
    ∀ line,
      files (snd (logger_info TRICOT line w2)) !! "/srv/app/logs/a.log"
        = files w2 !! "/srv/app/logs/a.log" ∧
      files (snd (logger_info TRICOT line w2)) !! "/srv/app/logs/b.log"
        = Some (default [] (files w2 !! "/srv/app/logs/b.log") ++ [line]).
Proof.
  exists (snd (new_log_file strftime (Some "logs/b.log") opened)).
  destruct (new_log_file_single_destination strftime
              (Some "logs/a.log") (Some "logs/b.log") start opened
              (snd (new_log_file strftime (Some "logs/b.log") opened)))
    as (_ & H2 & _ & _ & Hclosed & Hline); try (vm_compute; reflexivity).
  split_and!; [vm_compute; reflexivity|exact H2| |].
  - apply Hclosed. right. intros [Hin|Hin].
    + change (0%nat ∈ (∅ : gset nat)) in Hin. by apply elem_of_empty in Hin.
    + change (0%nat ∈ ([] : list nat)) in Hin. by apply elem_of_nil in Hin.
  - intros line. destruct (Hline line) as (_ & Hother & _ & Hthis). split.
    + apply Hother. discriminate.
    + apply Hthis; [reflexivity|vm_compute; reflexivity].
Defined.

(** C6 as it is written fails on a handler the application still refers
    to: after the second call it is off the channel, and it is not closed.
    It also fails on two paths that name one file: a record logged after
    [new_log_file("logs/a.log")] and [new_log_file("./logs/a.log")] is in
    the file of the first call. *)
Lemma kept_handler_left_open :
  (∃ w2,
     new_log_file strftime (Some "logs/b.log") kept = (Ok tt, w2) ∧
     handlers (tricot_logger (logging kept))
       = [Handler 0 NOTSET (Some "/srv/app/logs/a.log")] ∧
     handlers (tricot_logger (logging w2))
       = [Handler 1 NOTSET (Some "/srv/app/logs/b.log")] ∧
     (is_closed (Handler 0 NOTSET (Some "/srv/app/logs/a.log")) w2 → False)) ∧
  (∃ w2 line,
     new_log_file strftime (Some "./logs/a.log") opened = (Ok tt, w2) ∧
     log_path strftime (Some "logs/a.log") start = "/srv/app/logs/a.log" ∧
     files (snd (logger_info TRICOT line w2)) !! "/srv/app/logs/a.log"
       = Some [line]).
Proof.
  split.
  - exists (snd (new_log_file strftime (Some "logs/b.log") kept)).
    split_and!.
    + vm_compute. reflexivity.
    + vm_compute. reflexivity.
    + vm_compute. reflexivity.
    + unfold is_closed. apply (bool_decide_unpack _). vm_compute. exact I.
  - exists (snd (new_log_file strftime (Some "./logs/a.log") opened)), JNull.
    split_and!; vm_compute; reflexivity.
Qed.

(** ** The further properties on concrete runs *)

Import Cases.

(** The version strings of two releases of the library, and three strings
    that only look like a version before 1.0.0. *)
Example version_test_releases :
  openai_is_pre_1_0_0 "0.28.1" = Ok true ∧
  openai_is_pre_1_0_0 "1.3.7" = Ok false ∧
  openai_is_pre_1_0_0 "00.1" = Ok false ∧
  openai_is_pre_1_0_0 "0rc1" = Ok false ∧
  openai_is_pre_1_0_0 "" = Ok false.
Proof. vm_compute. done. Qed.


(** A call before any call of [new_log_file]: the line is handed to the
    channel and written nowhere. *)
Lemma unconfigured_channel_writes_nothing_witness :
  files (snd (create_and_log limit hello messages None [] start))
    = files start ∧
  console (snd (create_and_log limit hello messages None [] start)) = [] ∧
  ∃ line,
    emitted (snd (create_and_log limit hello messages None [] start))
      = emitted start ++ [line].
Proof.
  destruct (unconfigured_channel_writes_nothing limit hello messages None []
              start (snd (create_and_log limit hello messages None [] start))
              (Ok (VRef 5)))
    as (Hf & Hc & Hem); [reflexivity|reflexivity|vm_compute; reflexivity|].
  split_and!; [exact Hf|exact Hc|]. by apply (Hem (VRef 5)).
Defined.

(** A call that returns, one that raises and one more that returns: the log
    file holds two lines. *)
Lemma log_holds_returned_calls_witness :
  ∃ lines,
    length lines = 2%nat ∧
    files (snd (create_and_log limit hello messages None []
             (snd (create_and_log limit hello VNone None []
                (snd (create_and_log limit hello messages None [] opened))))))
      !! "/srv/app/logs/a.log" = Some lines.
Proof.
  destruct (log_holds_returned_calls limit hello strftime (Some "logs/a.log")
              start opened
              (snd (create_and_log limit hello messages None []
                 (snd (create_and_log limit hello VNone None []
                    (snd (create_and_log limit hello messages None []
                            opened))))))
              2)
    as (lines & Hn & _ & Hfile & _);
    [vm_compute; reflexivity|reflexivity|reflexivity| |].
  - eapply calls_returned with (messages := messages) (edit_call := None)
      (kwargs := []) (response := VRef 16)
      (w1 := snd (create_and_log limit hello VNone None []
                (snd (create_and_log limit hello messages None [] opened))));
      [|vm_compute; reflexivity].
    eapply calls_raised with (messages := VNone) (edit_call := None)
      (kwargs := []) (e := TypeError)
      (w1 := snd (create_and_log limit hello messages None [] opened));
      [|vm_compute; reflexivity].
    eapply calls_returned with (messages := messages) (edit_call := None)
      (kwargs := []) (response := VRef 5) (w1 := opened);
      [apply calls_none|vm_compute; reflexivity].
  - exists lines. split; [exact Hn|exact Hfile].
Defined.

(** The root logger got a handler after the log file was opened: the next
    call of [new_log_file] raises, the channel has lost its handler, and a
    call of the wrapper leaves the log file as it is. *)
Lemma index_error_strips_channel_witness :
  ∃ w',
    new_log_file strftime (Some "logs/b.log") reconfigured
      = (Raise IndexError, w') ∧
    handlers (tricot_logger (logging reconfigured))
      = [Handler 0 NOTSET (Some "/srv/app/logs/a.log")] ∧
    handlers (tricot_logger (logging w')) = [] ∧
    files (snd (create_and_log limit hello messages None [] w'))
      !! "/srv/app/logs/a.log" = Some [].
Proof.
  destruct (index_error_strips_channel limit hello strftime
              (Some "logs/b.log") reconfigured)
    as (w' & Hrun & Hnone & _ & _ & _ & _ & _ & Hlater);
    [split; [reflexivity|discriminate]|].
  exists w'. split_and!; [exact Hrun|reflexivity|exact Hnone|].
  erewrite Hlater; [vm_compute; reflexivity|apply surjective_pairing|].
  intros h Hh. change (h ∈ [Handler 1 NOTSET None]) in Hh.
  apply list_elem_of_singleton in Hh. rewrite Hh. discriminate.
Defined.

(** The log file cannot be opened: the call that follows returns its
    response, and its line is in no file and not on the console. *)
Lemma failed_open_loses_records_witness :
  fst (new_log_file strftime (Some "/proc/nowhere.log") start)
    = Raise OSError ∧
  files (snd (create_and_log limit hello messages None []
                (snd (new_log_file strftime (Some "/proc/nowhere.log")
                        start))))
    = files start ∧
  console (snd (create_and_log limit hello messages None []
                  (snd (new_log_file strftime (Some "/proc/nowhere.log")
                          start))))
    = [] ∧
  ∃ line,
    emitted (snd (create_and_log limit hello messages None []
                    (snd (new_log_file strftime (Some "/proc/nowhere.log")
                            start))))
      = [line].
Proof.
  destruct (failed_open_loses_records limit hello strftime
              (Some "/proc/nowhere.log") start
              (snd (new_log_file strftime (Some "/proc/nowhere.log") start))
              (snd (create_and_log limit hello messages None []
                      (snd (new_log_file strftime (Some "/proc/nowhere.log")
                              start))))
              messages None [] (Ok (VRef 5)))
    as (Hf & Hc & Hem); [vm_compute; reflexivity|vm_compute; reflexivity|].
  split_and!; [vm_compute; reflexivity|exact Hf|exact Hc|].
  by apply (Hem (VRef 5)).
Defined.

(** A second log file after one logged call. *)
Lemma new_log_file_again_witness :
  ∃ w3,
    new_log_file strftime (Some "logs/b.log")
        (snd (create_and_log limit hello messages None [] opened))
      = (Ok tt, w3) ∧
    handlers (tricot_logger (logging w3))
      = [Handler 1 NOTSET (Some "/srv/app/logs/b.log")].
Proof.
  apply (new_log_file_again limit hello strftime (Some "logs/a.log")
           (Some "logs/b.log") start opened
           (snd (create_and_log limit hello messages None [] opened)) 1).
  - vm_compute. reflexivity.
  - eapply calls_returned with (messages := messages) (edit_call := None)
      (kwargs := []) (response := VRef 5) (w1 := opened);
      [apply calls_none|vm_compute; reflexivity].
  - reflexivity.
  - intros [_ Hin]%elem_of_unwritable.
    change ("/srv/app/logs/b.log" ∈ ({["/proc/nowhere.log"]} : gset string))
      in Hin.
    apply elem_of_singleton in Hin. discriminate Hin.
Defined.

(** Without a hook the caller's list still holds its one message when the
    call returns. *)
Lemma no_hook_keeps_store_witness :
  preserved store
    (heap (py (snd (create_and_log limit hello messages None [] opened)))) ∧
  heap (py (snd (create_and_log limit hello messages None [] opened)))
    !! 1%nat = Some (OList [VRef 0]).
Proof.
  destruct (no_hook_keeps_store limit hello messages [] opened
              (snd (create_and_log limit hello messages None [] opened))
              (fst (create_and_log limit hello messages None [] opened))
              hello_frame (surjective_pairing _))
    as (Hkeep & _).
  split; [exact Hkeep|]. by apply Hkeep.
Defined.

(** A list that holds bytes: the completion call returns, the wrapper
    raises, and nothing is logged. *)
Lemma unserializable_messages_lose_response_witness :
  ∃ e,
    fst (create_and_log limit hello (VRef 0) None [] binary) = Raise e ∧
    emitted (snd (create_and_log limit hello (VRef 0) None [] binary)) = [] ∧
    fst (hello (VRef 0) [] (py binary)) = Ok (VRef 4).
Proof.
  destruct (unserializable_messages_lose_response limit hello 0%nat
              [VBytes [104; 105]] [] binary
              (snd (create_and_log limit hello (VRef 0) None [] binary))
              (fst (create_and_log limit hello (VRef 0) None [] binary))
              hello_frame eq_refl)
    as (e & He & Hem & _).
  - left. exists [104; 105]. apply list_elem_of_here.
  - apply surjective_pairing.
  - exists e. split_and!; [exact He|exact Hem|reflexivity].
Defined.

(** A hook that edits in place and returns nothing: the completion call is
    made, and the wrapper raises [TypeError]. *)
Lemma non_iterable_messages_fail_late_witness :
  fst (create_and_log limit hello messages (Some in_place) [] opened)
    = Raise TypeError ∧
  emitted (snd (create_and_log limit hello messages (Some in_place) []
                  opened)) = [] ∧
  clock (py (snd (create_and_log limit hello messages (Some in_place) []
                    opened))) = 1010.
Proof.
  destruct (non_iterable_messages_fail_late limit hello messages
              (Some in_place) [] opened
              (snd (edited limit (Some in_place) messages opened))
              VNone (VRef 8)
              (snd (hello VNone []
                      (py (snd (edited limit (Some in_place) messages
                                  opened))))))
    as (Hrun & Hem); [vm_compute; reflexivity|exact I|vm_compute; reflexivity|].
  rewrite Hrun. split_and!; [reflexivity|exact Hem|reflexivity].
Defined.

(** A response without choices, an error report: [KeyError], and nothing
    logged. *)
Lemma malformed_response_fails_witness :
  fst (create_and_log limit garbled messages None [] opened)
    = Raise KeyError ∧
  emitted (snd (create_and_log limit garbled messages None [] opened)) = [].
Proof.
  destruct (malformed_response_fails limit garbled messages None [] opened
              opened messages (VRef 2)
              (snd (garbled messages [] (py opened))) [VRef 0] KeyError)
    as (Hrun & Hem); try (vm_compute; reflexivity).
  - by eapply no_choices_key with (a := 2%nat).
  - rewrite Hrun. split; [reflexivity|exact Hem].
Defined.

(** The one line of the first call: two fields, two messages. *)
Lemma logged_line_format_witness :
  ∃ js jm,
    length js = 1%nat ∧
    emitted (snd (create_and_log limit hello messages None [] opened))
      = [JObj [("timestamp", JFloat 1000); ("messages", JArr (js ++ [jm]))]].
Proof.
  destruct (logged_line_format limit hello messages None [] opened
              (snd (create_and_log limit hello messages None [] opened))
              (VRef 5))
    as (forwarded & w1 & i2 & items & js & jm & He & Ho & Hu & Hn & Hem);
    [vm_compute; reflexivity|].
  exists js, jm. injection He as <- <-. injection Ho as <-.
  injection Hu as <-. split; [exact Hn|exact Hem].
Defined.

(** A path with a NUL character, on a channel that has a handler: the call
    raises [ValueError] and the channel is left without one. *)
Lemma new_log_file_nul_path_witness :
  ∃ w', new_log_file strftime (Some ("logs/a" +:+ String "000" ".log")) opened
          = (Raise ValueError, w') ∧
        handlers (tricot_logger (logging w')) = [] ∧
        handlers (tricot_logger (logging opened))
          = [Handler 0 NOTSET (Some "/srv/app/logs/a.log")].
Proof.
  destruct (new_log_file_nul_path strftime
              (Some ("logs/a" +:+ String "000" ".log")) opened)
    as (w' & Hrun & Hnone & _).
  - intros [_ Hr]. by apply Hr.
  - vm_compute. reflexivity.
  - exists w'. split_and!; [exact Hrun|exact Hnone|reflexivity].
Defined.
